(** * Supercamera TCP stream receiver: framed-stream decoder

    A shallow embedding of [scripts/stream_receiver.py]: the exact-read
    primitive [recv_exact], the header parser [parse_header] and the
    three statements of the receive loop that extract one frame
    ([decode_frame]), together with the properties of the wire protocol
    that the specification states about them.

    Python integers are unbounded, so they are [Z]; [bytes] objects are
    lists of [Byte.byte]; exceptions are values of [exn]; the socket is an
    explicit state threaded through the calls. *)

From Stdlib Require Import String Ascii.
From Stdlib Require Import ZArith List Lia Bool.
From Stdlib Require Import Strings.Byte.
From Stdlib Require Import DecimalString HexadecimalString.
From Equations Require Import Equations.
Import ListNotations.

Local Open Scope Z_scope.
Local Open Scope list_scope.

(** ** Values *)

Definition bytes : Type := list Byte.byte.

(** [len(data)] as a Python integer. *)
Definition len {A : Type} (l : list A) : Z := Z.of_nat (List.length l).

(** The exceptions the script raises or lets through.  [StructError] is
    [struct.error]. *)
Inductive exn : Type :=
| ConnectionError (msg : string)
| ValueError (msg : string)
| StructError (msg : string).

Inductive result (A : Type) : Type :=
| Ok (a : A)
| Raise (e : exn).
Arguments Ok {A} a.
Arguments Raise {A} e.

Definition result_bind {A B : Type} (r : result A) (k : A -> result B) : result B :=
  match r with
  | Ok a => k a
  | Raise e => Raise e
  end.

(** ** The socket

    The transport is the one the script relies on: a blocking
    [recv(bufsize)] that hands over at most [bufsize] bytes of whatever
    the peer's next delivery holds, and [b""] once the peer has closed.
    [pending] is the schedule of deliveries still to come, in order; a
    delivery that is more than [bufsize] bytes long is split, the rest
    staying at the head.  A zero-length delivery stands for a read that
    returns [b""]; after the last delivery every read returns [b""].
    [trace] logs every [recv] call with the size asked for and the data
    returned, oldest first.  A [recv] that fails with an [OSError] (a
    connection reset, say) is outside this model: what is proved is about
    streams that deliver their bytes and then close. *)
Record socket : Type := mkSocket {
  pending : list bytes;
  trace : list (Z * bytes)
}.

(** A computation on the socket that may raise: the state survives the
    exception, as the connection does. *)
Definition M (A : Type) : Type := socket -> result A * socket.

Definition ret {A : Type} (a : A) : M A := fun s => (Ok a, s).
Definition bind {A B : Type} (m : M A) (k : A -> M B) : M B :=
  fun s =>
    match m s with
    | (Ok a, s') => k a s'
    | (Raise e, s') => (Raise e, s')
    end.
Definition lift {A : Type} (r : result A) : M A := fun s => (r, s).

Declare Scope recv_scope.
Delimit Scope recv_scope with recv.
Notation "x <- m ;; k" := (bind m (fun x => k))
  (at level 61, m at next level, right associativity) : recv_scope.
Notation "' p <- m ;; k" := (bind m (fun x => match x with p => k end))
  (at level 61, p pattern, m at next level, right associativity) : recv_scope.

(** [sock.recv(bufsize)]. *)
Definition recv (bufsize : Z) : M bytes := fun s =>
  if bufsize <? 0 then (Raise (ValueError "negative buffersize in recv"), s)
  else
    match pending s with
    | [] => (Ok [], mkSocket [] (trace s ++ [(bufsize, [])]))
    | c :: rest =>
        let data := firstn (Z.to_nat bufsize) c in
        let left := skipn (Z.to_nat bufsize) c in
        (Ok data,
         mkSocket (match left with [] => rest | _ :: _ => left :: rest end)
                  (trace s ++ [(bufsize, data)]))
    end.

(** ** Constants *)

Definition STREAM_MAGIC : Z := 0x47535643.
Definition STREAM_VERSION : Z := 1.
Definition STREAM_CODEC_JPEG : Z := 1.
Definition HEADER_FORMAT : string := "!IBBHHHIQI".
Definition MAX_PAYLOAD_SIZE : Z := 1024 * 1024.

(** ** The part of [struct] the script uses

    Network byte order (["!"]): big-endian, standard sizes, no padding. *)

Definition field_width (c : ascii) : option nat :=
  match c with
  | "B"%char => Some 1%nat
  | "H"%char => Some 2%nat
  | "I"%char => Some 4%nat
  | "Q"%char => Some 8%nat
  | _ => None
  end.

Fixpoint field_widths (codes : string) : result (list nat) :=
  match codes with
  | EmptyString => Ok []
  | String c rest =>
      match field_width c with
      | Some w => result_bind (field_widths rest) (fun ws => Ok (w :: ws))
      | None => Raise (StructError "bad char in struct format")
      end
  end.

Definition format_widths (fmt : string) : result (list nat) :=
  match fmt with
  | String "!"%char codes => field_widths codes
  | _ => Raise (StructError "bad char in struct format")
  end.

(** [struct.calcsize(fmt)]. *)
Definition calcsize (fmt : string) : result Z :=
  result_bind (format_widths fmt)
    (fun ws => Ok (Z.of_nat (fold_right Nat.add 0%nat ws))).

Definition byte_val (b : Byte.byte) : Z := Z.of_N (Byte.to_N b).

(** [int.from_bytes(bs, "big")]. *)
Definition be_uint (bs : bytes) : Z :=
  fold_left (fun acc b => acc * 256 + byte_val b) bs 0.

Fixpoint unpack_fields (ws : list nat) (buf : bytes) : list Z :=
  match ws with
  | [] => []
  | w :: ws' => be_uint (firstn w buf) :: unpack_fields ws' (skipn w buf)
  end.

Definition str (z : Z) : string :=
  DecimalString.NilZero.string_of_int (Z.to_int z).

(** [struct.unpack(fmt, buffer)]. *)
Definition unpack (fmt : string) (buffer : bytes) : result (list Z) :=
  result_bind (format_widths fmt) (fun ws =>
    let size := Z.of_nat (fold_right Nat.add 0%nat ws) in
    if len buffer =? size then Ok (unpack_fields ws buffer)
    else Raise (StructError
           ("unpack requires a buffer of " ++ str size ++ " bytes")%string)).

Definition HEADER_SIZE : Z :=
  match calcsize HEADER_FORMAT with
  | Ok n => n
  | Raise _ => 0
  end.

(** ** Formatting of the error messages *)

Fixpoint zeros (n : nat) (tail : string) : string :=
  match n with
  | O => tail
  | S k => String "0" (zeros k tail)
  end.

Definition zero_pad (width : nat) (digits : string) : string :=
  zeros (width - String.length digits) digits.

(** [f"{z:08x}"]: lower-case hexadecimal, sign first, zero-padded to eight
    characters. *)
Definition format_08x (z : Z) : string :=
  let digits := HexadecimalString.NilZero.string_of_uint (N.to_hex_uint (Z.to_N (Z.abs z))) in
  if z <? 0 then String "-" (zero_pad 7 digits) else zero_pad 8 digits.

(** ** The receiver *)

(** The loop of [recv_exact], one iteration per unfolding; [chunks] is the
    list being appended to. Every iteration that goes on has received at
    least one byte, so [remaining] strictly decreases. *)
Equations? recv_exact_loop (remaining : Z) (chunks : list bytes) (s : socket)
  : result (list bytes) * socket by wf (Z.to_nat remaining) lt :=
recv_exact_loop remaining chunks s with Z_gt_dec remaining 0 => {
  | right _ := (Ok chunks, s)
  | left _ with recv remaining s => {
      | (Raise e, s') := (Raise e, s')
      | (Ok [], s') := (Raise (ConnectionError "peer closed the connection"), s')
      | (Ok (b :: d), s') :=
          recv_exact_loop (remaining - len (b :: d)) (chunks ++ [b :: d]) s' } }.
Proof. unfold len. simpl List.length. lia. Qed.

Definition recv_exact (size : Z) : M bytes := fun s =>
  match recv_exact_loop size [] s with
  | (Ok chunks, s') => (Ok (List.concat chunks), s')
  | (Raise e, s') => (Raise e, s')
  end.

(** The tuple assignment takes the nine values [struct.unpack] returns
    for [HEADER_FORMAT]; the last branch stands for the [ValueError] Python
    raises on any other count, which this format never produces. *)
Definition parse_header (raw_header : bytes) : result (Z * Z * Z * Z) :=
  result_bind (unpack HEADER_FORMAT raw_header) (fun fields =>
    match fields with
    | [magic; version; codec; _flags; source_id; _reserved;
       frame_id; timestamp_us; payload_size] =>
        if negb (magic =? STREAM_MAGIC) then
          Raise (ValueError ("bad magic: 0x" ++ format_08x magic)%string)
        else if negb (version =? STREAM_VERSION) then
          Raise (ValueError ("unsupported version: " ++ str version)%string)
        else if negb (codec =? STREAM_CODEC_JPEG) then
          Raise (ValueError ("unsupported codec: " ++ str codec)%string)
        else if payload_size >? MAX_PAYLOAD_SIZE then
          Raise (ValueError ("payload too large: " ++ str payload_size)%string)
        else Ok (source_id, frame_id, timestamp_us, payload_size)
    | _ => Raise (ValueError "wrong number of values to unpack")
    end).

(** What one turn of the receive loop holds once its reads are done: the
    locals [source_id], [frame_id], [timestamp_us] and [payload]. *)
Record Frame : Type := mkFrame {
  source_id : Z;
  frame_id : Z;
  timestamp_us : Z;
  payload : bytes
}.

(** The first three statements of the body of [while True] in
    [run_receiver]: one frame taken off the socket. *)
Definition decode_frame : M Frame :=
  (raw_header <- recv_exact HEADER_SIZE ;;
   '(source_id, frame_id, timestamp_us, payload_size) <- lift (parse_header raw_header) ;;
   payload <- recv_exact payload_size ;;
   ret (mkFrame source_id frame_id timestamp_us payload))%recv.

(** At most [n] turns of the receive loop, stopping at the first exception
    (which leaves [run_receiver]).  What the loop does with a frame after
    reading it (JPEG decoding, display, statistics) does not touch the
    socket and is left out; the frames are collected instead. *)
Fixpoint receive_frames (n : nat) (s : socket) : list Frame * option exn * socket :=
  match n with
  | O => ([], None, s)
  | S k =>
      match decode_frame s with
      | (Ok f, s') =>
          let '(fs, e, s'') := receive_frames k s' in (f :: fs, e, s'')
      | (Raise e, s') => ([], Some e, s')
      end
  end.

(** ** The wire format as the specification gives it

    These definitions follow the specification's description of the
    format (section 6), not the script: they are what a sender puts on the
    wire, and the receiver is compared with them. *)

Definition byte_of_Z (z : Z) : Byte.byte :=
  match Byte.of_N (Z.to_N (z mod 256)) with
  | Some b => b
  | None => Byte.x00
  end.

(** [v] as [w] bytes, most significant first. *)
Fixpoint spec_be_bytes (w : nat) (v : Z) : bytes :=
  match w with
  | O => []
  | S w' => spec_be_bytes w' (v / 256) ++ [byte_of_Z v]
  end.

Record Header : Type := mkHeader {
  h_magic : Z;
  h_version : Z;
  h_codec : Z;
  h_flags : Z;
  h_source_id : Z;
  h_reserved : Z;
  h_frame_id : Z;
  h_timestamp_us : Z;
  h_payload_size : Z
}.

Definition uint (bits : Z) (v : Z) : Prop := 0 <= v < 2 ^ bits.

Definition header_in_range (h : Header) : Prop :=
  uint 32 (h_magic h) /\ uint 8 (h_version h) /\ uint 8 (h_codec h) /\
  uint 16 (h_flags h) /\ uint 16 (h_source_id h) /\ uint 16 (h_reserved h) /\
  uint 32 (h_frame_id h) /\ uint 64 (h_timestamp_us h) /\
  uint 32 (h_payload_size h).

Definition spec_wire_header (h : Header) : bytes :=
  spec_be_bytes 4 (h_magic h) ++ spec_be_bytes 1 (h_version h) ++
  spec_be_bytes 1 (h_codec h) ++ spec_be_bytes 2 (h_flags h) ++
  spec_be_bytes 2 (h_source_id h) ++ spec_be_bytes 2 (h_reserved h) ++
  spec_be_bytes 4 (h_frame_id h) ++ spec_be_bytes 8 (h_timestamp_us h) ++
  spec_be_bytes 4 (h_payload_size h).

Definition header_fields (h : Header) : list Z :=
  [h_magic h; h_version h; h_codec h; h_flags h; h_source_id h;
   h_reserved h; h_frame_id h; h_timestamp_us h; h_payload_size h].

Definition valid_header (h : Header) : Prop :=
  header_in_range h /\
  h_magic h = 0x47535643 /\ h_version h = 1 /\ h_codec h = 1 /\
  h_payload_size h <= 1048576.

(** The header a 28-byte buffer stands for, field by field. *)
Definition header_of_fields (vs : list Z) : Header :=
  match vs with
  | [m; v; c; f; sid; r; fid; ts; ps] => mkHeader m v c f sid r fid ts ps
  | _ => mkHeader 0 0 0 0 0 0 0 0 0
  end.

Definition header_widths : list nat := [4; 1; 1; 2; 2; 2; 4; 8; 4]%nat.

Definition header_of_raw (raw : bytes) : Header :=
  header_of_fields (unpack_fields header_widths raw).

Fixpoint spec_pack_fields (ws : list nat) (vs : list Z) : bytes :=
  match ws, vs with
  | w :: ws', v :: vs' => spec_be_bytes w v ++ spec_pack_fields ws' vs'
  | _, _ => []
  end.

(** ** Observations on the socket *)

(** The bytes still to be delivered. *)
Definition unread (s : socket) : bytes := List.concat (pending s).

(** The bytes a run of [recv] calls returned. *)
Definition received (reads : list (Z * bytes)) : bytes :=
  List.concat (map snd reads).

(** No delivery is empty: the stream is its bytes cut into non-empty
    chunks, then the close. *)
Definition well_chunked (s : socket) : Prop :=
  Forall (fun c : bytes => c <> []) (pending s).

(** A read that made progress: it returned some bytes, no more than it
    asked for. *)
Definition partial_read (r : Z * bytes) : Prop :=
  snd r <> [] /\ len (snd r) <= fst r.

Definition peer_closed : exn := ConnectionError "peer closed the connection".

(** The reads [reads], made one after the other on the socket, each
    returning the data logged with it, take the socket from its first state
    to its last. *)
Inductive reads_from : socket -> list (Z * bytes) -> socket -> Prop :=
| reads_none (s : socket) : reads_from s [] s
| reads_next (s s1 s' : socket) (req : Z) (data : bytes)
    (reads : list (Z * bytes)) :
    recv req s = (Ok data, s1) ->
    reads_from s1 reads s' ->
    reads_from s ((req, data) :: reads) s'.

(** A socket with the given deliveries to come and no read made yet. *)
Definition fresh (chunks : list bytes) : socket := mkSocket chunks [].

(** Every read asks for what is still missing. *)
Fixpoint asks_remaining (remaining : Z) (reads : list (Z * bytes)) : Prop :=
  match reads with
  | [] => True
  | r :: rest => fst r = remaining /\ asks_remaining (remaining - len (snd r)) rest
  end.

(** What a run of the loop of [recv_exact] leaves behind. *)
Definition loop_post (remaining : Z) (chunks : list bytes) (s : socket)
    (out : result (list bytes) * socket) : Prop :=
  exists reads,
    trace (snd out) = trace s ++ reads /\
    unread s = received reads ++ unread (snd out) /\
    (well_chunked s -> well_chunked (snd out)) /\
    asks_remaining remaining reads /\
    match fst out with
    | Ok cs =>
        cs = chunks ++ map snd reads /\
        Forall partial_read reads /\
        len (received reads) = Z.max 0 remaining
    | Raise e =>
        e = peer_closed /\
        exists good req,
          reads = good ++ [(req, [])] /\
          Forall partial_read good /\
          len (received good) < remaining /\
          (well_chunked s -> pending (snd out) = [])
    end.

(** The checks of [parse_header], on a header already split into its
    fields. *)
Definition validate (h : Header) : result (Z * Z * Z * Z) :=
  if negb (h_magic h =? STREAM_MAGIC) then
    Raise (ValueError ("bad magic: 0x" ++ format_08x (h_magic h))%string)
  else if negb (h_version h =? STREAM_VERSION) then
    Raise (ValueError ("unsupported version: " ++ str (h_version h))%string)
  else if negb (h_codec h =? STREAM_CODEC_JPEG) then
    Raise (ValueError ("unsupported codec: " ++ str (h_codec h))%string)
  else if h_payload_size h >? MAX_PAYLOAD_SIZE then
    Raise (ValueError ("payload too large: " ++ str (h_payload_size h))%string)
  else Ok (h_source_id h, h_frame_id h, h_timestamp_us h, h_payload_size h).

(** The exception of a result, if any. *)
Definition verdict {A : Type} (r : result A) : option exn :=
  match r with
  | Ok _ => None
  | Raise e => Some e
  end.

(** The frame the receiver should hold after reading header [h] and
    payload [body]. *)
Definition frame_of (h : Header) (body : bytes) : Frame :=
  mkFrame (h_source_id h) (h_frame_id h) (h_timestamp_us h) body.

Definition set_flags (f : Z) (h : Header) : Header :=
  mkHeader (h_magic h) (h_version h) (h_codec h) f (h_source_id h)
           (h_reserved h) (h_frame_id h) (h_timestamp_us h) (h_payload_size h).

(** An exact read and a frame decode on the bare byte sequence, with no
    chunking at all: the reference the chunked reads are compared with. *)
Definition read_flat (size : Z) (bs : bytes) : result bytes * bytes :=
  if size <=? len bs then
    (Ok (firstn (Z.to_nat size) bs), skipn (Z.to_nat size) bs)
  else (Raise peer_closed, []).

Definition decode_flat (bs : bytes) : result Frame * bytes :=
  match read_flat HEADER_SIZE bs with
  | (Ok raw_header, rest) =>
      match parse_header raw_header with
      | Ok (source_id, frame_id, timestamp_us, payload_size) =>
          match read_flat payload_size rest with
          | (Ok payload, rest') =>
              (Ok (mkFrame source_id frame_id timestamp_us payload), rest')
          | (Raise e, rest') => (Raise e, rest')
          end
      | Raise e => (Raise e, rest)
      end
  | (Raise e, rest) => (Raise e, rest)
  end.

(** ** Sample data *)

Definition sample_header : Header :=
  mkHeader 0x47535643 1 1 0 3 0 42 1234567890123 2.

Definition sample_body : bytes := [Byte.xff; Byte.xd8].

Definition empty_frame_header : Header :=
  mkHeader 0x47535643 1 1 0 7 0 1 99 0.

(** A stream cut into single bytes. *)
Definition bytewise (bs : bytes) : list bytes := map (fun b => [b]) bs.

(** The sample header with every flag bit set. *)
Definition flagged_header : Header := set_flags 0xFFFF sample_header.

(** What it would mean for the flags to reach the receiver's output: some
    reading of the decoded frame gives the flags of the header it came
    from. *)
Definition flags_pass_through : Prop :=
  exists flags_of : Frame -> Z,
    forall (h : Header) (body : bytes) (s s' : socket) (f : Frame),
      valid_header h -> len body = h_payload_size h ->
      well_chunked s -> unread s = spec_wire_header h ++ body ->
      decode_frame s = (Ok f, s') ->
      flags_of f = h_flags h.

(** ** The rest of [run_receiver]

    The receive loop goes on, after the three reads, with the JPEG decoder
    and the display, which are OpenCV's; they are taken as given.
    [imdecode] is [cv2.imdecode] on the payload: an image, [None], or a
    [cv2.error].  The display calls return normally; each [cv2.waitKey(1)]
    takes the next of [keys], and [-1] (no key pressed) when they are used
    up.  What the script prints and shows is logged in [events], oldest
    first.  The wall clock and the frame rate computed from it are floating
    point and are left out of the statistics line.  Connecting is
    [socket.create_connection]: a connected socket, or an [OSError].

    Outside the model: an [OSError] raised by [recv] itself (the socket
    above only delivers bytes or closes), a peer that neither sends nor
    closes, and [KeyboardInterrupt], which is asynchronous; [main], whose
    [except] clauses are about these, is not modelled. *)

Section Receiver.

Variable image : Type.

Inductive decoded : Type :=
| Image (img : image)
| NoImage
| Cv2Error (msg : string).

Variable imdecode : bytes -> decoded.

Inductive event : Type :=
| Stdout (line : string)
| Imshow (window : string) (img : image)
| Stats (count source frame stamp : Z)
| DestroyAllWindows.

Record world : Type := mkWorld {
  sock : socket;
  keys : list Z;
  frame_count : Z;
  events : list event
}.

Definition with_sock (s : socket) (w : world) : world :=
  mkWorld s (keys w) (frame_count w) (events w).

Definition emit (ev : event) (w : world) : world :=
  mkWorld (sock w) (keys w) (frame_count w) (events w ++ [ev]).

Definition count_frame (w : world) : world :=
  mkWorld (sock w) (keys w) (frame_count w + 1) (events w).

(** [cv2.waitKey(1)]. *)
Definition waitKey (w : world) : Z * world :=
  match keys w with
  | [] => (-1, w)
  | k :: ks => (k, mkWorld (sock w) ks (frame_count w) (events w))
  end.

(** [key in (ord("q"), 27)] for [key = k & 0xFF]. *)
Definition quits (k : Z) : bool :=
  let key := Z.land k 0xFF in
  (key =? 113) || (key =? 27).

(** How a turn of the loop ends. *)
Inductive turn_end : Type :=
| Next
| Break
| Raises (e : exn)
| RaisesCv2 (msg : string).

(** The body of [while True], once. *)
Definition turn (log_every : Z) (window_name : string) (w : world)
  : turn_end * world :=
  match decode_frame (sock w) with
  | (Raise e, s') => (Raises e, with_sock s' w)
  | (Ok f, s') =>
      let w := with_sock s' w in
      match imdecode (payload f) with
      | Cv2Error msg => (RaisesCv2 msg, w)
      | NoImage =>
          (Next,
           emit (Stdout ("Warning: failed to decode JPEG source_id="
                         ++ str (source_id f) ++ " frame_id="
                         ++ str (frame_id f))%string) w)
      | Image img =>
          let current_window :=
            (window_name ++ " [source " ++ str (source_id f) ++ "]")%string in
          let w := emit (Imshow current_window img) w in
          let (k, w) := waitKey w in
          if quits k then (Break, w)
          else
            let w := count_frame w in
            if (log_every >? 0) && (frame_count w mod log_every =? 0) then
              (Next,
               emit (Stats (frame_count w) (source_id f) (frame_id f)
                           (timestamp_us f)) w)
            else (Next, w)
      end
  end.

(** How the loop ends, [None] when [fuel] turns were not enough. *)
Fixpoint receive_loop (log_every : Z) (window_name : string) (fuel : nat)
    (w : world) : option turn_end * world :=
  match fuel with
  | O => (None, w)
  | S fuel' =>
      match turn log_every window_name w with
      | (Next, w') => receive_loop log_every window_name fuel' w'
      | (ending, w') => (Some ending, w')
      end
  end.

Inductive connection : Type :=
| Connected (s : socket)
| Refused (msg : string).

(** How a call ends: it returns, or an exception leaves it. *)
Inductive outcome : Type :=
| Returned (code : Z)
| Raised (e : exn)
| RaisedOSError (msg : string)
| RaisedCv2 (msg : string)
| Unfinished.

Definition run_receiver (host : string) (port : Z) (log_every : Z)
    (window_name : string) (conn : connection) (user_keys : list Z)
    (fuel : nat) : outcome * world :=
  match conn with
  | Refused msg => (RaisedOSError msg, mkWorld (fresh []) user_keys 0 [])
  | Connected s =>
      let w :=
        mkWorld s user_keys 0
          [Stdout ("Connected to " ++ host ++ ":" ++ str port)%string] in
      match receive_loop log_every window_name fuel w with
      | (Some Break, w') => (Returned 0, emit DestroyAllWindows w')
      | (Some (Raises e), w') => (Raised e, w')
      | (Some (RaisesCv2 msg), w') => (RaisedCv2 msg, w')
      | (Some Next, w') => (Unfinished, w')
      | (None, w') => (Unfinished, w')
      end
  end.


Definition count_stats (evs : list event) : Z :=
  len (filter (fun ev => match ev with Stats _ _ _ _ => true | _ => false end) evs).

Definition count_warnings (evs : list event) : Z :=
  len (filter (fun ev => match ev with Stdout _ => true | _ => false end) evs).


Definition imshows (evs : list event) : list event :=
  filter (fun ev => match ev with Imshow _ _ => true | _ => false end) evs.

End Receiver.

Arguments Image {image} img.
Arguments NoImage {image}.
Arguments Cv2Error {image} msg.
Arguments Stdout {image} line.
Arguments Imshow {image} window img.
Arguments Stats {image} count source frame stamp.
Arguments DestroyAllWindows {image}.
Arguments mkWorld {image} sock keys frame_count events.
Arguments sock {image} w.
Arguments keys {image} w.
Arguments frame_count {image} w.
Arguments events {image} w.
Arguments turn {image} imdecode log_every window_name w.
Arguments receive_loop {image} imdecode log_every window_name fuel w.
Arguments run_receiver {image} imdecode host port log_every window_name conn user_keys fuel.

(** The number of bytes a frame takes on the wire. *)
Definition frame_bytes (f : Frame) : Z := 28 + len (payload f).

(** The number of bytes a run of frames takes on the wire. *)
Definition wire_size (fs : list Frame) : Z :=
  fold_right (fun f acc => frame_bytes f + acc) 0 fs.

(** The frame counts of the statistics lines printed, in order. *)
Definition stats_counts {image : Type} (evs : list (event image)) : list Z :=
  flat_map (fun ev => match ev with Stats c _ _ _ => [c] | _ => [] end) evs.

(** The first [n] positive multiples of [step]. *)
Definition multiples (step : Z) (n : nat) : list Z :=
  map (fun i => Z.of_nat i * step) (seq 1 n).

(** A stand-in for the JPEG decoder in examples.  An empty buffer makes
    it raise, as it does OpenCV's; a payload that starts with the byte
    [0xFF] is an image, here its length; any other payload is not one. *)
Definition sample_imdecode (b : bytes) : decoded nat :=
  match b with
  | [] => Cv2Error "imdecode: empty buffer"
  | x :: _ => if Byte.eqb x Byte.xff then Image (List.length b) else NoImage
  end.

(** A well-formed frame whose one payload byte is no image. *)
Definition junk_header : Header :=
  mkHeader 0x47535643 1 1 0 5 0 2 77 1.


(** What the loop keeps true of its statistics from turn to turn. *)
Definition stats_kept {image : Type} (log_every : Z) (w : world image) : Prop :=
  0 <= frame_count w /\
  stats_counts (events w) =
  if log_every >? 0
  then multiples log_every (Z.to_nat (frame_count w / log_every))
  else [].

(** ** Proofs *)

(** Closed goals about the sample data: ranges, equalities, lengths. *)
Ltac by_evaluation :=
  repeat split; vm_compute; solve [reflexivity | discriminate].

Lemma recv_exact_loop_eq remaining chunks s :
  recv_exact_loop remaining chunks s =
  if remaining >? 0 then
    match recv remaining s with
    | (Raise e, s') => (Raise e, s')
    | (Ok [], s') => (Raise peer_closed, s')
    | (Ok (b :: d), s') =>
        recv_exact_loop (remaining - len (b :: d)) (chunks ++ [b :: d]) s'
    end
  else (Ok chunks, s).
Proof.
  simp recv_exact_loop.
  destruct (Z_gt_dec remaining 0) as [Hgt | Hle]; simpl.
  - replace (remaining >? 0) with true by (symmetry; apply Z.gtb_lt; lia).
    destruct (recv remaining s) as [[[|b d]|e] s']; simpl; reflexivity.
  - replace (remaining >? 0) with false; [reflexivity|].
    symmetry. rewrite Z.gtb_ltb. apply Z.ltb_ge. lia.
Qed.

Lemma len_app {A : Type} (l1 l2 : list A) : len (l1 ++ l2) = len l1 + len l2.
Proof. unfold len. rewrite length_app. lia. Qed.

Lemma len_nonneg {A : Type} (l : list A) : 0 <= len l.
Proof. unfold len. lia. Qed.

Lemma len_firstn_le (k : nat) (c : bytes) : len (firstn k c) <= Z.of_nat k.
Proof. unfold len. rewrite length_firstn. lia. Qed.

(** One [recv] that asks for at least one byte. *)
Lemma recv_spec (bufsize : Z) (s : socket) :
  0 < bufsize ->
  exists data s1,
    recv bufsize s = (Ok data, s1) /\
    trace s1 = trace s ++ [(bufsize, data)] /\
    len data <= bufsize /\
    unread s = data ++ unread s1 /\
    (well_chunked s -> well_chunked s1 /\ (data = [] -> pending s1 = [])).
Proof.
  intros Hpos. unfold recv.
  replace (bufsize <? 0) with false by (symmetry; apply Z.ltb_ge; lia).
  destruct s as [pend tr]; simpl.
  destruct pend as [|c rest].
  - exists [], (mkSocket [] (tr ++ [(bufsize, [])])). simpl.
    repeat split; try reflexivity; try (unfold len; simpl; lia); auto.
  - eexists _, _. split; [reflexivity|]. simpl.
    split; [reflexivity|]. split.
    + pose proof (len_firstn_le (Z.to_nat bufsize) c). lia.
    + split.
      * unfold unread; simpl.
        rewrite <- (firstn_skipn (Z.to_nat bufsize) c) at 1.
        rewrite <- app_assoc. f_equal.
        destruct (skipn (Z.to_nat bufsize) c); reflexivity.
      * unfold well_chunked; simpl. intros Hwc.
        inversion Hwc as [|? ? Hc Hrest]; subst. split.
        -- destruct (skipn (Z.to_nat bufsize) c) eqn:E; [assumption|].
           constructor; [discriminate | assumption].
        -- intros Hnil. exfalso. destruct c as [|b c']; [congruence|].
           destruct (Z.to_nat bufsize) eqn:Ek; [lia|]. discriminate.
Qed.

Lemma received_cons (r : Z * bytes) (reads : list (Z * bytes)) :
  received (r :: reads) = snd r ++ received reads.
Proof. reflexivity. Qed.

Lemma received_snoc (reads : list (Z * bytes)) (r : Z * bytes) :
  received (reads ++ [r]) = received reads ++ snd r.
Proof.
  unfold received. rewrite map_app, concat_app. simpl.
  rewrite app_nil_r. reflexivity.
Qed.

Lemma recv_exact_loop_post_aux (n : nat) :
  forall remaining chunks s,
    (Z.to_nat remaining < n)%nat ->
    loop_post remaining chunks s (recv_exact_loop remaining chunks s).
Proof.
  induction n as [|n IH]; intros remaining chunks s Hn; [lia|].
  rewrite recv_exact_loop_eq.
  destruct (remaining >? 0) eqn:Hgt.
  - apply Z.gtb_lt in Hgt.
    destruct (recv_spec remaining s Hgt)
      as (data & s1 & Hrecv & Htr & Hlen & Hun & Hwc).
    rewrite Hrecv. destruct data as [|b d].
    + (* the read came back empty *)
      exists [(remaining, [])]. simpl.
      split; [assumption|]. split; [assumption|].
      split; [intros H; apply Hwc, H|].
      split; [split; [reflexivity | exact I]|].
      split; [reflexivity|].
      exists [], remaining. simpl.
      split; [reflexivity|]. split; [constructor|].
      split; [unfold len; simpl; lia|].
      intros H. apply Hwc; auto.
    + (* some bytes arrived: go round again *)
      assert (Hd : 0 < len (b :: d)) by (unfold len; simpl; lia).
      destruct (IH (remaining - len (b :: d)) (chunks ++ [b :: d]) s1)
        as (reads & Htr' & Hun' & Hwc' & Hasks & Hres); [lia|].
      assert (Hpr : partial_read (remaining, b :: d))
        by (split; [discriminate | assumption]).
      exists ((remaining, b :: d) :: reads).
      split; [rewrite Htr', Htr, <- app_assoc; reflexivity|].
      split; [rewrite received_cons, Hun, Hun', <- app_assoc; reflexivity|].
      split; [intros H; apply Hwc', Hwc, H|].
      split; [split; [reflexivity | exact Hasks]|].
      destruct (fst (recv_exact_loop (remaining - len (b :: d))
                       (chunks ++ [b :: d]) s1)) as [cs|e].
      * destruct Hres as (Hcs & Hall & Hsum).
        split; [rewrite Hcs, <- app_assoc; reflexivity|].
        split; [constructor; assumption|].
        rewrite received_cons, len_app, Hsum. simpl snd. lia.
      * destruct Hres as (He & good & req & Hreads & Hall & Hsum & Hend).
        split; [assumption|].
        exists ((remaining, b :: d) :: good), req.
        split; [rewrite Hreads; reflexivity|].
        split; [constructor; assumption|].
        split; [rewrite received_cons, len_app; simpl snd; lia|].
        intros H. apply Hend, Hwc, H.
  - (* nothing is missing *)
    rewrite Z.gtb_ltb in Hgt. apply Z.ltb_ge in Hgt.
    exists []. simpl. rewrite !app_nil_r.
    split; [reflexivity|]. split; [reflexivity|]. split; [auto|].
    split; [exact I|]. split; [reflexivity|]. split; [constructor|].
    unfold len; simpl. lia.
Qed.

Lemma recv_exact_loop_post remaining chunks s :
  loop_post remaining chunks s (recv_exact_loop remaining chunks s).
Proof. apply (recv_exact_loop_post_aux (S (Z.to_nat remaining))). lia. Qed.

(** *** [recv_exact] on a stream seen as its bytes *)

Lemma recv_exact_post (size : Z) (s : socket) :
  exists reads s',
    trace s' = trace s ++ reads /\
    unread s = received reads ++ unread s' /\
    (well_chunked s -> well_chunked s') /\
    asks_remaining size reads /\
    ((recv_exact size s = (Ok (received reads), s') /\
      Forall partial_read reads /\
      len (received reads) = Z.max 0 size)
     \/
     (recv_exact size s = (Raise peer_closed, s') /\
      exists good req,
        reads = good ++ [(req, [])] /\
        Forall partial_read good /\
        len (received good) < size /\
        (well_chunked s -> pending s' = []))).
Proof.
  destruct (recv_exact_loop_post size [] s)
    as (reads & Htr & Hun & Hwc & Hasks & Hres).
  unfold recv_exact.
  destruct (recv_exact_loop size [] s) as [[cs|e] s']; simpl in *;
    exists reads, s'; (do 4 (split; [assumption|])).
  - left. destruct Hres as (-> & Hall & Hsum). auto.
  - right. destruct Hres as (-> & Hgood). auto.
Qed.

Lemma firstn_len_app (l1 l2 : bytes) :
  firstn (Z.to_nat (len l1)) (l1 ++ l2) = l1.
Proof.
  unfold len. rewrite Nat2Z.id, firstn_app, Nat.sub_diag, firstn_all.
  simpl. apply app_nil_r.
Qed.

Lemma skipn_len_app (l1 l2 : bytes) :
  skipn (Z.to_nat (len l1)) (l1 ++ l2) = l2.
Proof.
  unfold len. rewrite Nat2Z.id, skipn_app, Nat.sub_diag, skipn_all.
  reflexivity.
Qed.

(** With enough bytes to come and no empty delivery, [recv_exact] returns
    the next [size] bytes of the stream and leaves the rest. *)
Lemma recv_exact_enough (size : Z) (s : socket) :
  well_chunked s -> 0 <= size -> size <= len (unread s) ->
  exists s',
    recv_exact size s = (Ok (firstn (Z.to_nat size) (unread s)), s') /\
    unread s' = skipn (Z.to_nat size) (unread s) /\
    well_chunked s' /\
    exists reads,
      trace s' = trace s ++ reads /\
      received reads = firstn (Z.to_nat size) (unread s) /\
      Forall partial_read reads.
Proof.
  intros Hwc Hsize Hlen.
  destruct (recv_exact_post size s)
    as (reads & s' & Htr & Hun & Hwc' & _ & [(Hr & Hpr & Hsum) | (Hr & Hbad)]).
  - exists s'. rewrite Z.max_r in Hsum by assumption.
    rewrite Hr, Hun, <- Hsum, firstn_len_app, skipn_len_app.
    split; [reflexivity|]. split; [reflexivity|].
    split; [apply Hwc', Hwc|]. exists reads. auto.
  - exfalso. destruct Hbad as (good & req & -> & _ & Hlt & Hend).
    rewrite received_snoc in Hun. simpl in Hun. rewrite app_nil_r in Hun.
    unfold unread at 2 in Hun. rewrite (Hend Hwc) in Hun. simpl in Hun.
    rewrite app_nil_r in Hun. rewrite Hun in Hlen. lia.
Qed.

(** With fewer bytes to come than asked for, [recv_exact] raises. *)
Lemma recv_exact_short (size : Z) (s : socket) :
  len (unread s) < size ->
  exists s',
    recv_exact size s = (Raise peer_closed, s') /\
    (well_chunked s -> pending s' = []).
Proof.
  intros Hlen.
  destruct (recv_exact_post size s)
    as (reads & s' & Htr & Hun & Hwc' & _ & [(Hr & _ & Hsum) | (Hr & Hbad)]).
  - exfalso. rewrite Hun, len_app in Hlen.
    pose proof (len_nonneg (unread s')). lia.
  - exists s'. destruct Hbad as (good & req & _ & _ & _ & Hend). auto.
Qed.

Lemma recv_exact_zero (size : Z) (s : socket) :
  size <= 0 -> recv_exact size s = (Ok [], s).
Proof.
  intros Hle. unfold recv_exact. rewrite recv_exact_loop_eq.
  replace (size >? 0) with false; [reflexivity|].
  symmetry. rewrite Z.gtb_ltb. apply Z.ltb_ge. assumption.
Qed.

(** *** Big-endian fields *)

Lemma byte_val_range (b : Byte.byte) : 0 <= byte_val b < 256.
Proof.
  unfold byte_val. pose proof (Byte.to_N_bounded b). lia.
Qed.

Lemma byte_val_of_Z (z : Z) : byte_val (byte_of_Z z) = z mod 256.
Proof.
  unfold byte_of_Z, byte_val.
  pose proof (Z.mod_pos_bound z 256 ltac:(lia)) as Hr.
  destruct (Byte.of_N (Z.to_N (z mod 256))) as [b|] eqn:E.
  - apply Byte.to_of_N in E. rewrite E. apply Z2N.id. lia.
  - apply Byte.of_N_None_iff in E. lia.
Qed.

Lemma byte_of_Z_val (b : Byte.byte) (hi : Z) :
  byte_of_Z (hi * 256 + byte_val b) = b.
Proof.
  unfold byte_of_Z.
  pose proof (byte_val_range b) as Hr.
  rewrite Z.add_comm, Z.mod_add, Z.mod_small by lia.
  unfold byte_val. rewrite N2Z.id, Byte.of_to_N. reflexivity.
Qed.

Lemma be_uint_snoc (bs : bytes) (b : Byte.byte) :
  be_uint (bs ++ [b]) = be_uint bs * 256 + byte_val b.
Proof. unfold be_uint. rewrite fold_left_app. reflexivity. Qed.

Lemma spec_be_bytes_length (w : nat) (v : Z) :
  List.length (spec_be_bytes w v) = w.
Proof.
  revert v. induction w as [|w IH]; intros v; simpl; [reflexivity|].
  rewrite length_app, IH. simpl. lia.
Qed.

Lemma be_uint_range (bs : bytes) :
  0 <= be_uint bs < 256 ^ Z.of_nat (List.length bs).
Proof.
  induction bs as [|b bs IH] using rev_ind.
  - simpl. unfold be_uint. simpl. lia.
  - rewrite be_uint_snoc, length_app. simpl List.length.
    replace (Z.of_nat (List.length bs + 1)) with (Z.succ (Z.of_nat (List.length bs))) by lia.
    rewrite Z.pow_succ_r by lia.
    pose proof (byte_val_range b). nia.
Qed.

(** Decoding an encoded field gives the value back, reduced to the
    field's width. *)
Lemma be_uint_spec_be_bytes (w : nat) (v : Z) :
  be_uint (spec_be_bytes w v) = v mod 256 ^ Z.of_nat w.
Proof.
  revert v. induction w as [|w IH]; intros v.
  - simpl. rewrite Z.mod_1_r. reflexivity.
  - simpl spec_be_bytes. rewrite be_uint_snoc, IH, byte_val_of_Z.
    replace (Z.of_nat (S w)) with (Z.succ (Z.of_nat w)) by lia.
    rewrite Z.pow_succ_r by lia.
    rewrite Z.rem_mul_r by lia. lia.
Qed.

(** Encoding a decoded field gives the bytes back. *)
Lemma spec_be_bytes_be_uint (bs : bytes) :
  spec_be_bytes (List.length bs) (be_uint bs) = bs.
Proof.
  induction bs as [|b bs IH] using rev_ind; [reflexivity|].
  rewrite length_app, Nat.add_comm. simpl.
  rewrite be_uint_snoc, byte_of_Z_val.
  pose proof (byte_val_range b) as Hr.
  replace ((be_uint bs * 256 + byte_val b) / 256) with (be_uint bs).
  - rewrite IH. reflexivity.
  - rewrite Z.add_comm, Z.div_add, Z.div_small by lia. lia.
Qed.

(** *** The header layout *)

Lemma format_widths_header : format_widths HEADER_FORMAT = Ok header_widths.
Proof. reflexivity. Qed.

Lemma HEADER_SIZE_28 : HEADER_SIZE = 28.
Proof. reflexivity. Qed.

Lemma unpack_header_sized (raw : bytes) :
  len raw = 28 ->
  unpack HEADER_FORMAT raw = Ok (unpack_fields header_widths raw).
Proof.
  intros Hlen. unfold unpack. rewrite format_widths_header. simpl.
  rewrite Hlen. reflexivity.
Qed.

Lemma unpack_header_missized (raw : bytes) :
  len raw <> 28 ->
  unpack HEADER_FORMAT raw =
  Raise (StructError "unpack requires a buffer of 28 bytes").
Proof.
  intros Hlen. unfold unpack. rewrite format_widths_header. simpl.
  destruct (len raw =? 28) eqn:E; [apply Z.eqb_eq in E; contradiction|].
  reflexivity.
Qed.

Lemma firstn_exact_app (w : nat) (l1 l2 : bytes) :
  List.length l1 = w -> firstn w (l1 ++ l2) = l1.
Proof.
  intros <-. rewrite firstn_app, Nat.sub_diag, firstn_all. simpl.
  apply app_nil_r.
Qed.

Lemma skipn_exact_app (w : nat) (l1 l2 : bytes) :
  List.length l1 = w -> skipn w (l1 ++ l2) = l2.
Proof.
  intros <-. rewrite skipn_app, Nat.sub_diag, skipn_all. reflexivity.
Qed.

Lemma unpack_fields_cons (w : nat) (ws : list nat) (v : Z) (rest : bytes) :
  unpack_fields (w :: ws) (spec_be_bytes w v ++ rest) =
  v mod 256 ^ Z.of_nat w :: unpack_fields ws rest.
Proof.
  simpl.
  rewrite firstn_exact_app, skipn_exact_app by apply spec_be_bytes_length.
  rewrite be_uint_spec_be_bytes. reflexivity.
Qed.

Lemma spec_pack_unpack_fields (ws : list nat) :
  forall raw : bytes,
    List.length raw = fold_right Nat.add 0%nat ws ->
    spec_pack_fields ws (unpack_fields ws raw) = raw.
Proof.
  induction ws as [|w ws IH]; intros raw Hlen; simpl in *.
  - destruct raw; [reflexivity | discriminate].
  - assert (Hw : List.length (firstn w raw) = w)
      by (rewrite length_firstn; lia).
    pose proof (spec_be_bytes_be_uint (firstn w raw)) as Hb.
    rewrite Hw in Hb. rewrite Hb, IH.
    + apply firstn_skipn.
    + rewrite length_skipn. lia.
Qed.

Lemma spec_wire_header_pack (h : Header) :
  spec_wire_header h = spec_pack_fields header_widths (header_fields h).
Proof.
  unfold spec_wire_header, header_widths, header_fields.
  cbn [spec_pack_fields]. rewrite app_nil_r. reflexivity.
Qed.

Lemma spec_wire_header_len (h : Header) : len (spec_wire_header h) = 28.
Proof.
  unfold len, spec_wire_header.
  rewrite !length_app, !spec_be_bytes_length. reflexivity.
Qed.

Lemma unpack_fields_wire_header (h : Header) :
  header_in_range h ->
  unpack_fields header_widths (spec_wire_header h) = header_fields h.
Proof.
  intros (Hm & Hv & Hc & Hf & Hs & Hr & Hi & Ht & Hp).
  unfold spec_wire_header, header_widths, header_fields.
  rewrite !unpack_fields_cons.
  rewrite <- (app_nil_r (spec_be_bytes 4 (h_payload_size h))).
  rewrite unpack_fields_cons. simpl unpack_fields.
  unfold uint in *.
  rewrite !Z.mod_small by (simpl; lia). reflexivity.
Qed.

Lemma unpack_wire_header (h : Header) :
  header_in_range h ->
  unpack HEADER_FORMAT (spec_wire_header h) = Ok (header_fields h).
Proof.
  intros Hr. rewrite unpack_header_sized by apply spec_wire_header_len.
  rewrite unpack_fields_wire_header by assumption. reflexivity.
Qed.

Lemma be_uint_firstn_range (w : nat) (raw : bytes) (bits : Z) :
  bits = 8 * Z.of_nat w -> uint bits (be_uint (firstn w raw)).
Proof.
  intros ->. unfold uint.
  pose proof (be_uint_range (firstn w raw)) as Hr.
  assert (Hle : (List.length (firstn w raw) <= w)%nat)
    by (rewrite length_firstn; lia).
  replace 256 with (2 ^ 8) in Hr by reflexivity.
  rewrite <- Z.pow_mul_r in Hr by lia.
  split; [lia|]. eapply Z.lt_le_trans; [apply Hr|].
  apply Z.pow_le_mono_r; lia.
Qed.

(** Every 28-byte buffer is the wire form of exactly the header read off
    it. *)
Lemma header_of_raw_wire (raw : bytes) :
  len raw = 28 ->
  header_in_range (header_of_raw raw) /\
  spec_wire_header (header_of_raw raw) = raw /\
  unpack HEADER_FORMAT raw = Ok (header_fields (header_of_raw raw)).
Proof.
  intros Hlen. split; [|split].
  - unfold header_of_raw, header_widths, header_in_range.
    cbn [unpack_fields header_of_fields h_magic h_version h_codec h_flags
         h_source_id h_reserved h_frame_id h_timestamp_us h_payload_size].
    repeat match goal with |- uint _ _ /\ _ => split end;
      apply be_uint_firstn_range; reflexivity.
  - rewrite spec_wire_header_pack.
    unfold header_of_raw, header_widths, header_fields.
    cbn [unpack_fields header_of_fields h_magic h_version h_codec h_flags
         h_source_id h_reserved h_frame_id h_timestamp_us h_payload_size].
    apply (spec_pack_unpack_fields header_widths).
    unfold len in Hlen. simpl. lia.
  - rewrite unpack_header_sized by assumption. reflexivity.
Qed.

(** *** [parse_header] and [decode_frame], unfolded *)

Lemma parse_header_sized (raw : bytes) :
  len raw = 28 -> parse_header raw = validate (header_of_raw raw).
Proof.
  intros Hlen. unfold parse_header.
  rewrite unpack_header_sized by assumption. reflexivity.
Qed.

Lemma parse_header_missized (raw : bytes) :
  len raw <> 28 ->
  parse_header raw = Raise (StructError "unpack requires a buffer of 28 bytes").
Proof.
  intros Hlen. unfold parse_header.
  rewrite unpack_header_missized by assumption. reflexivity.
Qed.

Lemma parse_header_wire (h : Header) :
  header_in_range h -> parse_header (spec_wire_header h) = validate h.
Proof.
  intros Hr. unfold parse_header. rewrite unpack_wire_header by assumption.
  reflexivity.
Qed.

Lemma validate_valid (h : Header) :
  valid_header h ->
  validate h =
  Ok (h_source_id h, h_frame_id h, h_timestamp_us h, h_payload_size h).
Proof.
  intros (_ & Hm & Hv & Hc & Hp). unfold validate.
  rewrite Hm, Hv, Hc. simpl.
  replace (h_payload_size h >? MAX_PAYLOAD_SIZE) with false; [reflexivity|].
  symmetry. rewrite Z.gtb_ltb. apply Z.ltb_ge. unfold MAX_PAYLOAD_SIZE. lia.
Qed.

Lemma decode_frame_eq (s : socket) :
  decode_frame s =
  match recv_exact HEADER_SIZE s with
  | (Ok raw_header, s1) =>
      match parse_header raw_header with
      | Ok (source_id, frame_id, timestamp_us, payload_size) =>
          match recv_exact payload_size s1 with
          | (Ok payload, s2) =>
              (Ok (mkFrame source_id frame_id timestamp_us payload), s2)
          | (Raise e, s2) => (Raise e, s2)
          end
      | Raise e => (Raise e, s1)
      end
  | (Raise e, s1) => (Raise e, s1)
  end.
Proof.
  unfold decode_frame, bind, lift, ret.
  destruct (recv_exact HEADER_SIZE s) as [[raw|e] s1]; [|reflexivity].
  destruct (parse_header raw) as [[[[sid fid] ts] ps]|e]; [|reflexivity].
  destruct (recv_exact ps s1) as [[body|e] s2]; reflexivity.
Qed.

(** Reading off a known prefix of the stream. *)
Lemma recv_exact_prefix (data rest : bytes) (s : socket) :
  well_chunked s -> unread s = data ++ rest ->
  exists s1,
    recv_exact (len data) s = (Ok data, s1) /\
    unread s1 = rest /\
    well_chunked s1 /\
    exists reads,
      trace s1 = trace s ++ reads /\ received reads = data /\
      Forall partial_read reads.
Proof.
  intros Hwc Hun.
  destruct (recv_exact_enough (len data) s Hwc (len_nonneg data))
    as (s1 & Hr & Hrest & Hwc1 & reads & Htr & Hrec & Hpr).
  - rewrite Hun, len_app. pose proof (len_nonneg rest). lia.
  - rewrite Hun, firstn_len_app in Hr, Hrec.
    rewrite Hun, skipn_len_app in Hrest.
    exists s1. split; [assumption|]. split; [assumption|].
    split; [assumption|]. exists reads. auto.
Qed.

Lemma recv_exact_flat (size : Z) (s : socket) :
  well_chunked s ->
  exists s',
    recv_exact size s = (fst (read_flat size (unread s)), s') /\
    unread s' = snd (read_flat size (unread s)) /\
    well_chunked s'.
Proof.
  intros Hwc. unfold read_flat.
  destruct (size <=? len (unread s)) eqn:Hle; simpl.
  - apply Z.leb_le in Hle. destruct (Z_le_gt_dec size 0) as [Hneg | Hpos].
    + exists s. rewrite recv_exact_zero by assumption.
      replace (Z.to_nat size) with 0%nat by lia. simpl. auto.
    + destruct (recv_exact_enough size s Hwc ltac:(lia) Hle)
        as (s' & Hr & Hrest & Hwc' & _).
      exists s'. auto.
  - apply Z.leb_gt in Hle.
    destruct (recv_exact_short size s Hle) as (s' & Hr & Hend).
    exists s'. split; [assumption|].
    unfold unread, well_chunked. rewrite (Hend Hwc). simpl. auto.
Qed.

(** On a stream without empty deliveries [decode_frame] is [decode_flat] of
    the bytes to come. *)
Lemma decode_frame_flat (s : socket) :
  well_chunked s ->
  exists s',
    decode_frame s = (fst (decode_flat (unread s)), s') /\
    unread s' = snd (decode_flat (unread s)) /\
    well_chunked s'.
Proof.
  intros Hwc. rewrite decode_frame_eq. unfold decode_flat.
  destruct (recv_exact_flat HEADER_SIZE s Hwc) as (s1 & Hr1 & Hun1 & Hwc1).
  rewrite Hr1.
  destruct (read_flat HEADER_SIZE (unread s)) as [[raw|e] rest]; simpl in *.
  - destruct (parse_header raw) as [[[[sid fid] ts] ps]|e].
    + destruct (recv_exact_flat ps s1 Hwc1) as (s2 & Hr2 & Hun2 & Hwc2).
      rewrite Hr2, Hun1 in *.
      destruct (read_flat ps rest) as [[body|e] rest']; simpl in *;
        exists s2; auto.
    + exists s1. auto.
  - exists s1. auto.
Qed.

(** Decoding a well-formed frame at the head of the stream. *)
Lemma decode_frame_valid (h : Header) (body rest : bytes) (s : socket) :
  valid_header h -> len body = h_payload_size h ->
  well_chunked s -> unread s = spec_wire_header h ++ body ++ rest ->
  exists s1 s',
    recv_exact HEADER_SIZE s = (Ok (spec_wire_header h), s1) /\
    recv_exact (h_payload_size h) s1 = (Ok body, s') /\
    decode_frame s = (Ok (frame_of h body), s') /\
    unread s' = rest /\ well_chunked s' /\
    exists reads,
      trace s' = trace s ++ reads /\
      received reads = spec_wire_header h ++ body.
Proof.
  intros Hv Hlen Hwc Hun.
  destruct (recv_exact_prefix _ _ s Hwc Hun)
    as (s1 & Hr1 & Hun1 & Hwc1 & reads1 & Htr1 & Hrec1 & _).
  rewrite spec_wire_header_len in Hr1.
  destruct (recv_exact_prefix _ _ s1 Hwc1 Hun1)
    as (s2 & Hr2 & Hun2 & Hwc2 & reads2 & Htr2 & Hrec2 & _).
  rewrite Hlen in Hr2.
  exists s1, s2. rewrite HEADER_SIZE_28.
  split; [assumption|]. split; [assumption|]. split.
  - rewrite decode_frame_eq, HEADER_SIZE_28, Hr1.
    rewrite parse_header_wire by apply Hv.
    rewrite validate_valid by assumption. rewrite Hr2. reflexivity.
  - split; [assumption|]. split; [assumption|].
    exists (reads1 ++ reads2). split.
    + rewrite Htr2, Htr1, app_assoc. reflexivity.
    + unfold received in *. rewrite map_app, concat_app, Hrec1, Hrec2.
      reflexivity.
Qed.

(** ** The exact-read primitive *)

Lemma recv_exact_loop_reads (n : nat) :
  forall remaining chunks s,
    (Z.to_nat remaining < n)%nat ->
    exists reads,
      reads_from s reads (snd (recv_exact_loop remaining chunks s)) /\
      trace (snd (recv_exact_loop remaining chunks s)) = trace s ++ reads.
Proof.
  induction n as [|n IH]; intros remaining chunks s Hn; [lia|].
  rewrite recv_exact_loop_eq.
  destruct (remaining >? 0) eqn:Hgt.
  - apply Z.gtb_lt in Hgt.
    destruct (recv_spec remaining s Hgt)
      as (data & s1 & Hrecv & Htr & Hlen & _).
    rewrite Hrecv. destruct data as [|b d].
    + exists [(remaining, [])]. simpl. split; [|assumption].
      apply (reads_next s s1 s1 remaining [] [] Hrecv). constructor.
    + assert (Hd : 0 < len (b :: d)) by (unfold len; simpl; lia).
      destruct (IH (remaining - len (b :: d)) (chunks ++ [b :: d]) s1)
        as (reads & Hfrom & Htr'); [lia|].
      exists ((remaining, b :: d) :: reads). split.
      * apply (reads_next s s1 _ remaining (b :: d) reads Hrecv Hfrom).
      * rewrite Htr', Htr, <- app_assoc. reflexivity.
  - exists []. simpl. rewrite app_nil_r. split; [constructor | reflexivity].
Qed.

Lemma recv_exact_reads (size : Z) (s : socket) :
  exists reads,
    reads_from s reads (snd (recv_exact size s)) /\
    trace (snd (recv_exact size s)) = trace s ++ reads.
Proof.
  destruct (recv_exact_loop_reads (S (Z.to_nat size)) size [] s)
    as (reads & Hfrom & Htr); [lia|].
  exists reads. unfold recv_exact.
  destruct (recv_exact_loop size [] s) as [[cs|e] s']; auto.
Qed.

(** C3. For a byte count [size >= 0] and any stream, [recv_exact] makes a
    run of [recv] calls on the socket, each asking for what is still
    missing and getting what the socket hands over.  Either every read
    returned at least one byte and at most what it asked for, and the
    result is the [size] bytes they returned, in order; or the last read of
    the run came back empty while fewer than [size] bytes had been
    gathered, no read before it was empty, and the result is the
    peer-closed [ConnectionError], raised at that read with no further
    read.  Which of the two it is is settled by the stream: with [size]
    bytes or more to come and no empty delivery, the result is the first
    [size] bytes and the rest is left; with fewer than [size] bytes to
    come, it is the exception. *)
Theorem recv_exact_exact_or_closed (size : Z) (s : socket) :
  0 <= size ->
  exists reads s',
    reads_from s reads s' /\
    trace s' = trace s ++ reads /\
    asks_remaining size reads /\
    unread s = received reads ++ unread s' /\
    ((recv_exact size s = (Ok (received reads), s') /\
      len (received reads) = size /\
      Forall partial_read reads)
     \/
     (recv_exact size s =
        (Raise (ConnectionError "peer closed the connection"), s') /\
      exists good req,
        reads = good ++ [(req, [])] /\
        Forall partial_read good /\
        len (received good) < size)) /\
    (well_chunked s -> size <= len (unread s) ->
     recv_exact size s = (Ok (firstn (Z.to_nat size) (unread s)), s') /\
     unread s' = skipn (Z.to_nat size) (unread s)) /\
    (len (unread s) < size ->
     recv_exact size s =
       (Raise (ConnectionError "peer closed the connection"), s')).
Proof.
  intros Hsize.
  destruct (recv_exact_post size s)
    as (reads & s' & Htr & Hun & _ & Hasks & Hres).
  assert (Hsnd : snd (recv_exact size s) = s')
    by (destruct Hres as [(Hr & _) | (Hr & _)]; rewrite Hr; reflexivity).
  destruct (recv_exact_reads size s) as (reads' & Hfrom & Htr').
  rewrite Hsnd in Hfrom, Htr'. rewrite Htr in Htr'.
  apply app_inv_head in Htr'. subst reads'.
  exists reads, s'. split; [assumption|]. split; [assumption|].
  split; [assumption|]. split; [assumption|]. split; [|split].
  - destruct Hres
      as [(Hr & Hpr & Hsum) | (Hr & good & req & Hreads & Hpr & Hlt & _)].
    + left. rewrite Z.max_r in Hsum by assumption. auto.
    + right. split; [exact Hr|]. exists good, req. auto.
  - intros Hwc Hlen.
    destruct (recv_exact_enough size s Hwc Hsize Hlen)
      as (s2 & Hr & Hrest & _).
    assert (s2 = s') by (rewrite Hr in Hsnd; exact Hsnd). subst s2. auto.
  - intros Hshort.
    destruct (recv_exact_short size s Hshort) as (s2 & Hr & _).
    assert (s2 = s') by (rewrite Hr in Hsnd; exact Hsnd). subst s2. exact Hr.
Qed.

Lemma recv_exact_exact_or_closed_witness :
  0 <= 3 /\
  exists reads s',
    reads_from (fresh (bytewise (spec_wire_header sample_header))) reads s' /\
    trace s' = trace (fresh (bytewise (spec_wire_header sample_header))) ++ reads /\
    asks_remaining 3 reads /\
    unread (fresh (bytewise (spec_wire_header sample_header))) =
      received reads ++ unread s' /\
    ((recv_exact 3 (fresh (bytewise (spec_wire_header sample_header))) =
        (Ok (received reads), s') /\
      len (received reads) = 3 /\
      Forall partial_read reads)
     \/
     (recv_exact 3 (fresh (bytewise (spec_wire_header sample_header))) =
        (Raise (ConnectionError "peer closed the connection"), s') /\
      exists good req,
        reads = good ++ [(req, [])] /\
        Forall partial_read good /\
        len (received good) < 3)) /\
    (well_chunked (fresh (bytewise (spec_wire_header sample_header))) ->
     3 <= len (unread (fresh (bytewise (spec_wire_header sample_header)))) ->
     recv_exact 3 (fresh (bytewise (spec_wire_header sample_header))) =
       (Ok (firstn (Z.to_nat 3)
              (unread (fresh (bytewise (spec_wire_header sample_header))))), s') /\
     unread s' =
       skipn (Z.to_nat 3)
         (unread (fresh (bytewise (spec_wire_header sample_header))))) /\
    (len (unread (fresh (bytewise (spec_wire_header sample_header)))) < 3 ->
     recv_exact 3 (fresh (bytewise (spec_wire_header sample_header))) =
       (Raise (ConnectionError "peer closed the connection"), s')).
Proof.
  split; [lia|].
  apply (recv_exact_exact_or_closed 3
           (fresh (bytewise (spec_wire_header sample_header)))).
  lia.
Defined.

(** Three one-byte deliveries take three reads, asking for 3, 2 and 1. *)
Example recv_exact_three_reads :
  recv_exact 3 (fresh [[Byte.x47]; [Byte.x53]; [Byte.x56]; [Byte.x43]]) =
  (Ok [Byte.x47; Byte.x53; Byte.x56],
   mkSocket [[Byte.x43]]
     [(3, [Byte.x47]); (2, [Byte.x53]); (1, [Byte.x56])]).
Proof. reflexivity. Qed.

(** A stream that ends early: one read after the last byte, then the
    exception. *)
Example recv_exact_closed_early :
  recv_exact 3 (fresh [[Byte.x47]; [Byte.x53]]) =
  (Raise (ConnectionError "peer closed the connection"),
   mkSocket [] [(3, [Byte.x47]); (2, [Byte.x53]); (1, [])]).
Proof. reflexivity. Qed.

(** C9. Asked for zero bytes, [recv_exact] returns [b""] and leaves the
    socket as it was, trace included: no read is made.  So a valid header
    with [payload_size = 0] decodes to a frame with an empty payload, and
    the socket after the decode is the socket after the header read: the
    28 header bytes and nothing else were taken. *)
Theorem zero_payload_reads_nothing
    (s0 : socket) (h : Header) (rest : bytes) (s : socket) :
  valid_header h -> h_payload_size h = 0 ->
  well_chunked s -> unread s = spec_wire_header h ++ rest ->
  recv_exact 0 s0 = (Ok [], s0) /\
  exists s1 reads,
    recv_exact HEADER_SIZE s = (Ok (spec_wire_header h), s1) /\
    recv_exact (h_payload_size h) s1 = (Ok [], s1) /\
    decode_frame s =
      (Ok (mkFrame (h_source_id h) (h_frame_id h) (h_timestamp_us h) []), s1) /\
    trace s1 = trace s ++ reads /\
    received reads = spec_wire_header h /\
    len (received reads) = 28 /\
    unread s1 = rest.
Proof.
  intros Hv Hzero Hwc Hun.
  split; [apply recv_exact_zero; lia|].
  destruct (decode_frame_valid h [] rest s Hv) as
    (s1 & s' & Hr1 & Hr2 & Hdec & Hrest & _ & reads & Htr & Hrec);
    [rewrite Hzero; reflexivity | assumption | assumption |].
  rewrite Hzero, recv_exact_zero in Hr2 by lia.
  injection Hr2 as <-.
  rewrite app_nil_r in Hrec.
  exists s1, reads. rewrite Hzero, (recv_exact_zero 0 s1) by lia.
  split; [assumption|]. split; [reflexivity|]. split; [exact Hdec|].
  split; [assumption|]. split; [assumption|].
  split; [rewrite Hrec; apply spec_wire_header_len | assumption].
Qed.

Lemma sample_header_valid : valid_header sample_header.
Proof.
  by_evaluation.
Qed.

Lemma empty_frame_header_valid : valid_header empty_frame_header.
Proof.
  by_evaluation.
Qed.

Lemma bytewise_well_chunked (bs : bytes) (tr : list (Z * bytes)) :
  well_chunked (mkSocket (bytewise bs) tr).
Proof.
  unfold well_chunked, bytewise. simpl. apply Forall_forall.
  intros c Hin. apply in_map_iff in Hin. destruct Hin as (b & <- & _).
  discriminate.
Qed.

Lemma concat_bytewise (bs : bytes) : List.concat (bytewise bs) = bs.
Proof.
  induction bs as [|b bs IH]; simpl; [reflexivity|]. rewrite IH. reflexivity.
Qed.

Lemma unread_bytewise (bs : bytes) : unread (fresh (bytewise bs)) = bs.
Proof. unfold unread, fresh. cbn [pending]. apply concat_bytewise. Qed.

Lemma zero_payload_reads_nothing_witness :
  exists s1,
    decode_frame (fresh (bytewise (spec_wire_header empty_frame_header))) =
      (Ok (mkFrame 7 1 99 []), s1) /\
    len (received (trace s1)) = 28.
Proof.
  destruct (zero_payload_reads_nothing
              (fresh []) empty_frame_header []
              (fresh (bytewise (spec_wire_header empty_frame_header))))
    as (_ & s1 & reads & _ & _ & Hdec & Htr & _ & Hlen & _).
  - exact empty_frame_header_valid.
  - reflexivity.
  - apply bytewise_well_chunked.
  - rewrite unread_bytewise, app_nil_r. reflexivity.
  - exists s1. split; [exact Hdec|]. simpl in Htr. rewrite Htr. exact Hlen.
Defined.

(** ** Decoding a frame *)

(** C1. A header with the right magic, version 1, codec 1 and
    [payload_size <= 1048576], followed by exactly [payload_size] payload
    bytes, decodes in one [decode_frame] to the frame whose [source_id],
    [frame_id] and [timestamp_us] are those the header encodes and whose
    payload is the bytes that followed, whatever comes after on the stream
    and however the bytes are cut into deliveries. *)
Theorem decode_valid_frame_succeeds
    (h : Header) (body rest : bytes) (s : socket) :
  valid_header h -> len body = h_payload_size h ->
  well_chunked s -> unread s = spec_wire_header h ++ body ++ rest ->
  exists s',
    decode_frame s =
      (Ok (mkFrame (h_source_id h) (h_frame_id h) (h_timestamp_us h) body), s') /\
    unread s' = rest.
Proof.
  intros Hv Hlen Hwc Hun.
  destruct (decode_frame_valid h body rest s Hv Hlen Hwc Hun)
    as (s1 & s' & _ & _ & Hdec & Hrest & _).
  exists s'. split; assumption.
Qed.

Lemma decode_valid_frame_succeeds_witness :
  exists s',
    decode_frame
      (fresh (bytewise (spec_wire_header sample_header ++ sample_body))) =
      (Ok (mkFrame 3 42 1234567890123 [Byte.xff; Byte.xd8]), s') /\
    unread s' = [].
Proof.
  apply (decode_valid_frame_succeeds sample_header sample_body []
           (fresh (bytewise (spec_wire_header sample_header ++ sample_body)))).
  - exact sample_header_valid.
  - reflexivity.
  - apply bytewise_well_chunked.
  - rewrite unread_bytewise, app_nil_r. reflexivity.
Defined.

(** The size bound is inclusive: a payload of exactly 1048576 bytes is
    announced without complaint, one byte more is refused. *)
Example parse_header_at_the_bound :
  parse_header (spec_wire_header (mkHeader 0x47535643 1 1 0 3 0 42 7 1048576))
    = Ok (3, 42, 7, 1048576) /\
  parse_header (spec_wire_header (mkHeader 0x47535643 1 1 0 3 0 42 7 1048577))
    = Raise (ValueError "payload too large: 1048577").
Proof. split; reflexivity. Qed.

(** ** The header *)




(** A buffer of any other length is refused by [struct.unpack]. *)
Lemma parse_header_needs_28_bytes (raw : bytes) :
  len raw <> 28 ->
  parse_header raw = Raise (StructError "unpack requires a buffer of 28 bytes").
Proof. apply parse_header_missized. Qed.

(** The layout on a buffer whose bytes are their own offsets. *)
Example unpack_by_offset :
  unpack HEADER_FORMAT
    [Byte.x00; Byte.x01; Byte.x02; Byte.x03; Byte.x04; Byte.x05; Byte.x06;
     Byte.x07; Byte.x08; Byte.x09; Byte.x0a; Byte.x0b; Byte.x0c; Byte.x0d;
     Byte.x0e; Byte.x0f; Byte.x10; Byte.x11; Byte.x12; Byte.x13; Byte.x14;
     Byte.x15; Byte.x16; Byte.x17; Byte.x18; Byte.x19; Byte.x1a; Byte.x1b] =
  Ok [0x00010203; 0x04; 0x05; 0x0607; 0x0809; 0x0a0b; 0x0c0d0e0f;
      0x1011121314151617; 0x18191a1b].
Proof. reflexivity. Qed.

(** ** Validation *)

Lemma validate_cases (h : Header) :
  (h_magic h <> STREAM_MAGIC ->
   validate h =
   Raise (ValueError ("bad magic: 0x" ++ format_08x (h_magic h))%string)) /\
  (h_magic h = STREAM_MAGIC -> h_version h <> STREAM_VERSION ->
   validate h =
   Raise (ValueError ("unsupported version: " ++ str (h_version h))%string)) /\
  (h_magic h = STREAM_MAGIC -> h_version h = STREAM_VERSION ->
   h_codec h <> STREAM_CODEC_JPEG ->
   validate h =
   Raise (ValueError ("unsupported codec: " ++ str (h_codec h))%string)) /\
  (h_magic h = STREAM_MAGIC -> h_version h = STREAM_VERSION ->
   h_codec h = STREAM_CODEC_JPEG -> h_payload_size h > MAX_PAYLOAD_SIZE ->
   validate h =
   Raise (ValueError ("payload too large: " ++ str (h_payload_size h))%string)) /\
  (h_magic h = STREAM_MAGIC -> h_version h = STREAM_VERSION ->
   h_codec h = STREAM_CODEC_JPEG -> h_payload_size h <= MAX_PAYLOAD_SIZE ->
   validate h =
   Ok (h_source_id h, h_frame_id h, h_timestamp_us h, h_payload_size h)).
Proof.
  unfold validate.
  destruct (Z.eqb_spec (h_magic h) STREAM_MAGIC) as [Hm | Hm];
  destruct (Z.eqb_spec (h_version h) STREAM_VERSION) as [Hv | Hv];
  destruct (Z.eqb_spec (h_codec h) STREAM_CODEC_JPEG) as [Hc | Hc];
  destruct (h_payload_size h >? MAX_PAYLOAD_SIZE) eqn:Hp;
  rewrite Z.gtb_ltb in Hp;
  try apply Z.ltb_lt in Hp; try apply Z.ltb_ge in Hp;
  simpl; repeat split; intros; try reflexivity; try contradiction; lia.
Qed.

(** C2. A 28-byte header at the head of the stream is checked for its
    magic, then its version, then its codec, then its payload size against
    [MAX_PAYLOAD_SIZE]; the first check that fails raises a [ValueError]
    whose message carries the offending value, whatever the later fields
    hold.  When a check fails, [decode_frame] ends with that exception in
    the state the header read left: the reads made returned the 28 header
    bytes and nothing more, and everything after the header is still
    unread. *)
Theorem validation_order_before_payload
    (raw rest : bytes) (s : socket) :
  len raw = HEADER_SIZE -> well_chunked s -> unread s = raw ++ rest ->
  (h_magic (header_of_raw raw) <> STREAM_MAGIC ->
   parse_header raw =
   Raise (ValueError
     ("bad magic: 0x" ++ format_08x (h_magic (header_of_raw raw)))%string)) /\
  (h_magic (header_of_raw raw) = STREAM_MAGIC ->
   h_version (header_of_raw raw) <> STREAM_VERSION ->
   parse_header raw =
   Raise (ValueError
     ("unsupported version: " ++ str (h_version (header_of_raw raw)))%string)) /\
  (h_magic (header_of_raw raw) = STREAM_MAGIC ->
   h_version (header_of_raw raw) = STREAM_VERSION ->
   h_codec (header_of_raw raw) <> STREAM_CODEC_JPEG ->
   parse_header raw =
   Raise (ValueError
     ("unsupported codec: " ++ str (h_codec (header_of_raw raw)))%string)) /\
  (h_magic (header_of_raw raw) = STREAM_MAGIC ->
   h_version (header_of_raw raw) = STREAM_VERSION ->
   h_codec (header_of_raw raw) = STREAM_CODEC_JPEG ->
   h_payload_size (header_of_raw raw) > MAX_PAYLOAD_SIZE ->
   parse_header raw =
   Raise (ValueError
     ("payload too large: " ++ str (h_payload_size (header_of_raw raw)))%string)) /\
  (forall e,
     parse_header raw = Raise e ->
     exists s1 reads,
       recv_exact HEADER_SIZE s = (Ok raw, s1) /\
       decode_frame s = (Raise e, s1) /\
       trace s1 = trace s ++ reads /\
       received reads = raw /\
       unread s1 = rest).
Proof.
  intros Hlen Hwc Hun. rewrite HEADER_SIZE_28 in Hlen.
  rewrite (parse_header_sized raw Hlen).
  destruct (validate_cases (header_of_raw raw)) as (H1 & H2 & H3 & H4 & _).
  do 4 (split; [assumption|]).
  intros e He.
  destruct (recv_exact_prefix raw rest s Hwc Hun)
    as (s1 & Hr & Hrest & _ & reads & Htr & Hrec & _).
  rewrite Hlen in Hr.
  exists s1, reads. rewrite HEADER_SIZE_28.
  split; [assumption|]. split.
  - rewrite decode_frame_eq, HEADER_SIZE_28, Hr.
    rewrite (parse_header_sized raw Hlen), He. reflexivity.
  - auto.
Qed.

(** A header wrong in three places (version 2, codec 9, oversize payload)
    is refused for its version, the first of the three to be checked, and
    the payload bytes behind it stay unread. *)
Lemma validation_order_before_payload_witness :
  exists s1,
    decode_frame
      (fresh (bytewise
         (spec_wire_header (mkHeader 0x47535643 2 9 0 3 0 42 7 1048577)
          ++ sample_body))) =
      (Raise (ValueError "unsupported version: 2"), s1) /\
    unread s1 = sample_body.
Proof.
  destruct (validation_order_before_payload
              (spec_wire_header (mkHeader 0x47535643 2 9 0 3 0 42 7 1048577))
              sample_body
              (fresh (bytewise
                 (spec_wire_header (mkHeader 0x47535643 2 9 0 3 0 42 7 1048577)
                  ++ sample_body))))
    as (_ & _ & _ & _ & Hdec).
  - reflexivity.
  - apply bytewise_well_chunked.
  - apply unread_bytewise.
  - destruct (Hdec (ValueError "unsupported version: 2") eq_refl)
      as (s1 & reads & _ & Hd & _ & _ & Hrest).
    exists s1. split; assumption.
Defined.

(** ** Streams that end early *)

(** C4. When the stream ends after [k] bytes with [0 < k < 28], or after a
    whole valid header and fewer payload bytes than the header announces,
    [decode_frame] raises the peer-closed [ConnectionError]: neither a
    [ValueError] nor a [struct.error]. *)
Theorem closed_stream_raises_connection_error (s : socket) :
  (0 < len (unread s) < HEADER_SIZE \/
   (well_chunked s /\
    exists h body,
      valid_header h /\
      unread s = spec_wire_header h ++ body /\
      len body < h_payload_size h)) ->
  exists s',
    decode_frame s = (Raise (ConnectionError "peer closed the connection"), s').
Proof.
  intros [[_ Hshort] | (Hwc & h & body & Hv & Hun & Hshort)];
    rewrite decode_frame_eq.
  - destruct (recv_exact_short HEADER_SIZE s Hshort) as (s' & Hr & _).
    rewrite Hr. exists s'. reflexivity.
  - destruct (recv_exact_prefix _ _ s Hwc Hun)
      as (s1 & Hr1 & Hun1 & _).
    rewrite spec_wire_header_len in Hr1. rewrite HEADER_SIZE_28, Hr1.
    rewrite parse_header_wire by apply Hv.
    rewrite validate_valid by assumption.
    destruct (recv_exact_short (h_payload_size h) s1) as (s' & Hr2 & _).
    + rewrite Hun1. assumption.
    + rewrite Hr2. exists s'. reflexivity.
Qed.

Lemma closed_stream_raises_connection_error_witness :
  (exists s',
     decode_frame (fresh [[Byte.x47; Byte.x53]; [Byte.x56]]) =
     (Raise (ConnectionError "peer closed the connection"), s')) /\
  (exists s',
     decode_frame
       (fresh (bytewise (spec_wire_header sample_header ++ [Byte.xff]))) =
     (Raise (ConnectionError "peer closed the connection"), s')).
Proof.
  split.
  - apply (closed_stream_raises_connection_error
             (fresh [[Byte.x47; Byte.x53]; [Byte.x56]])).
    left. vm_compute. split; reflexivity.
  - apply (closed_stream_raises_connection_error
             (fresh (bytewise (spec_wire_header sample_header ++ [Byte.xff])))).
    right. split; [apply bytewise_well_chunked|].
    exists sample_header, [Byte.xff].
    split; [exact sample_header_valid|].
    split; [apply unread_bytewise | reflexivity].
Defined.

(** ** Frames back to back *)

(** C6. Two valid frames one after the other on the stream, however it is
    cut into deliveries: the first [decode_frame] returns the first frame
    and leaves the stream at the first byte of the second header, the
    second returns the second frame and leaves the stream at the byte
    after its payload, which is the end of input when nothing follows. *)
Theorem two_frames_back_to_back
    (h1 h2 : Header) (body1 body2 rest : bytes) (s : socket) :
  valid_header h1 -> len body1 = h_payload_size h1 ->
  valid_header h2 -> len body2 = h_payload_size h2 ->
  well_chunked s ->
  unread s =
    (spec_wire_header h1 ++ body1) ++ (spec_wire_header h2 ++ body2) ++ rest ->
  exists s1 s2,
    decode_frame s =
      (Ok (mkFrame (h_source_id h1) (h_frame_id h1) (h_timestamp_us h1) body1),
       s1) /\
    unread s1 = (spec_wire_header h2 ++ body2) ++ rest /\
    decode_frame s1 =
      (Ok (mkFrame (h_source_id h2) (h_frame_id h2) (h_timestamp_us h2) body2),
       s2) /\
    unread s2 = rest /\
    (rest = [] -> pending s2 = []) /\
    receive_frames 2 s =
      ([mkFrame (h_source_id h1) (h_frame_id h1) (h_timestamp_us h1) body1;
        mkFrame (h_source_id h2) (h_frame_id h2) (h_timestamp_us h2) body2],
       None, s2).
Proof.
  intros Hv1 Hl1 Hv2 Hl2 Hwc Hun.
  rewrite <- app_assoc in Hun.
  destruct (decode_frame_valid h1 body1 _ s Hv1 Hl1 Hwc Hun)
    as (_ & s1 & _ & _ & Hd1 & Hun1 & Hwc1 & _).
  rewrite <- app_assoc in Hun1.
  destruct (decode_frame_valid h2 body2 _ s1 Hv2 Hl2 Hwc1 Hun1)
    as (_ & s2 & _ & _ & Hd2 & Hun2 & Hwc2 & _).
  exists s1, s2. unfold frame_of in *.
  split; [assumption|].
  split; [rewrite Hun1, app_assoc; reflexivity|].
  split; [assumption|]. split; [assumption|]. split.
  - intros ->. unfold unread in Hun2. unfold well_chunked in Hwc2.
    destruct (pending s2) as [|c cs]; [reflexivity|]. exfalso.
    inversion Hwc2 as [|? ? Hc _]; subst. simpl in Hun2.
    apply app_eq_nil in Hun2. destruct Hun2 as [Hnil _]. contradiction.
  - simpl. rewrite Hd1, Hd2. reflexivity.
Qed.

Lemma two_frames_back_to_back_witness :
  exists s2,
    receive_frames 2
      (fresh (bytewise
         ((spec_wire_header sample_header ++ sample_body) ++
          (spec_wire_header empty_frame_header ++ [])))) =
      ([mkFrame 3 42 1234567890123 [Byte.xff; Byte.xd8]; mkFrame 7 1 99 []],
       None, s2) /\
    pending s2 = [].
Proof.
  destruct (two_frames_back_to_back
              sample_header empty_frame_header sample_body [] []
              (fresh (bytewise
                 ((spec_wire_header sample_header ++ sample_body) ++
                  (spec_wire_header empty_frame_header ++ [])))))
    as (s1 & s2 & _ & _ & _ & _ & Hend & Hrun).
  - exact sample_header_valid.
  - reflexivity.
  - exact empty_frame_header_valid.
  - reflexivity.
  - apply bytewise_well_chunked.
  - rewrite unread_bytewise, app_nil_r. reflexivity.
  - exists s2. split; [exact Hrun | exact (Hend eq_refl)].
Defined.

(** ** Chunking *)

Lemma receive_frames_chunking (n : nat) :
  forall s1 s2,
    well_chunked s1 -> well_chunked s2 -> unread s1 = unread s2 ->
    fst (receive_frames n s1) = fst (receive_frames n s2) /\
    unread (snd (receive_frames n s1)) = unread (snd (receive_frames n s2)).
Proof.
  induction n as [|n IH]; intros s1 s2 Hwc1 Hwc2 Hun; simpl.
  - auto.
  - destruct (decode_frame_flat s1 Hwc1) as (s1' & Hd1 & Hun1 & Hwc1').
    destruct (decode_frame_flat s2 Hwc2) as (s2' & Hd2 & Hun2 & Hwc2').
    rewrite Hd1, Hd2. rewrite <- Hun in Hun2, Hd2 |- *.
    destruct (fst (decode_flat (unread s1))) as [f|e]; simpl.
    + destruct (IH s1' s2' Hwc1' Hwc2') as (Hfst & Hsnd); [congruence|].
      destruct (receive_frames n s1') as [[fs1 e1] t1].
      destruct (receive_frames n s2') as [[fs2 e2] t2].
      simpl in *. split; [congruence | assumption].
    + split; [reflexivity | congruence].
Qed.

(** C7. Two deliveries of the same byte sequence, each cut into non-empty
    chunks in its own way, give the same outcome: one [decode_frame]
    returns the same frame or raises the same exception on both and leaves
    the same bytes unread, and so does any number of successive decodes
    (same frames in the same order, same exception if one is raised, same
    bytes left). *)
Theorem chunking_independence (n : nat) (s1 s2 : socket) :
  well_chunked s1 -> well_chunked s2 -> unread s1 = unread s2 ->
  fst (decode_frame s1) = fst (decode_frame s2) /\
  unread (snd (decode_frame s1)) = unread (snd (decode_frame s2)) /\
  fst (receive_frames n s1) = fst (receive_frames n s2) /\
  unread (snd (receive_frames n s1)) = unread (snd (receive_frames n s2)).
Proof.
  intros Hwc1 Hwc2 Hun.
  destruct (decode_frame_flat s1 Hwc1) as (s1' & Hd1 & Hun1 & _).
  destruct (decode_frame_flat s2 Hwc2) as (s2' & Hd2 & Hun2 & _).
  rewrite Hd1, Hd2. simpl. rewrite Hun1, Hun2, Hun.
  split; [reflexivity|]. split; [reflexivity|].
  apply receive_frames_chunking; assumption.
Qed.

(** The whole of [spec_wire_header sample_header ++ sample_body] in one
    delivery, against the same bytes one at a time, with an earlier read
    already in the trace of the second socket. *)
Lemma chunking_independence_witness :
  fst (receive_frames 3
         (fresh [spec_wire_header sample_header ++ sample_body])) =
  fst (receive_frames 3
         (mkSocket (bytewise (spec_wire_header sample_header ++ sample_body))
                   [(1, [])])).
Proof.
  apply (chunking_independence 3
           (fresh [spec_wire_header sample_header ++ sample_body])
           (mkSocket (bytewise (spec_wire_header sample_header ++ sample_body))
                     [(1, [])])).
  - unfold well_chunked, fresh. simpl pending.
    constructor; [discriminate | constructor].
  - apply bytewise_well_chunked.
  - unfold unread at 1. unfold fresh. cbn [pending List.concat].
    rewrite app_nil_r. symmetry. apply concat_bytewise.
Defined.

Example chunking_sample_outcome :
  fst (receive_frames 3
         (fresh (bytewise (spec_wire_header sample_header ++ sample_body)))) =
  ([mkFrame 3 42 1234567890123 [Byte.xff; Byte.xd8]],
   Some (ConnectionError "peer closed the connection")).
Proof. reflexivity. Qed.

(** ** What validation looks at *)

(** C10. Two 28-byte headers with the same magic, version, codec and
    payload size are both accepted by [parse_header] or both refused with
    the same exception, message included, whatever their flags, source
    id, reserved field, frame id and timestamp. *)
Theorem validation_ignores_other_fields (raw1 raw2 : bytes) :
  len raw1 = 28 -> len raw2 = 28 ->
  h_magic (header_of_raw raw1) = h_magic (header_of_raw raw2) ->
  h_version (header_of_raw raw1) = h_version (header_of_raw raw2) ->
  h_codec (header_of_raw raw1) = h_codec (header_of_raw raw2) ->
  h_payload_size (header_of_raw raw1) = h_payload_size (header_of_raw raw2) ->
  verdict (parse_header raw1) = verdict (parse_header raw2).
Proof.
  intros Hl1 Hl2 Hm Hv Hc Hp.
  rewrite !parse_header_sized by assumption.
  unfold validate. rewrite Hm, Hv, Hc, Hp.
  repeat match goal with
         | |- context [if ?b then _ else _] => destruct b
         end; reflexivity.
Qed.

Lemma validation_ignores_other_fields_witness :
  verdict (parse_header
             (spec_wire_header (mkHeader 0x47535643 1 2 0 3 0 42 7 5))) =
  verdict (parse_header
             (spec_wire_header (mkHeader 0x47535643 1 2 65535 9 1 0 8 5))).
Proof.
  apply (validation_ignores_other_fields
           (spec_wire_header (mkHeader 0x47535643 1 2 0 3 0 42 7 5))
           (spec_wire_header (mkHeader 0x47535643 1 2 65535 9 1 0 8 5)));
    reflexivity.
Defined.

(** ** The flags field *)

Lemma set_flags_in_range (h : Header) (f : Z) :
  header_in_range h -> uint 16 f -> header_in_range (set_flags f h).
Proof.
  intros (Hm & Hv & Hc & _ & Hrest) Hf. unfold header_in_range, set_flags.
  simpl. auto.
Qed.

Lemma validate_set_flags (h : Header) (f : Z) :
  validate (set_flags f h) = validate h.
Proof. reflexivity. Qed.

Lemma read_flat_prefix (data tail : bytes) :
  read_flat (len data) (data ++ tail) = (Ok data, tail).
Proof.
  unfold read_flat. rewrite firstn_len_app, skipn_len_app.
  replace (len data <=? len (data ++ tail)) with true; [reflexivity|].
  symmetry. apply Z.leb_le. rewrite len_app.
  pose proof (len_nonneg tail). lia.
Qed.

Lemma decode_flat_wire (h : Header) (tail : bytes) :
  header_in_range h ->
  decode_flat (spec_wire_header h ++ tail) =
  match validate h with
  | Ok (source_id, frame_id, timestamp_us, payload_size) =>
      match read_flat payload_size tail with
      | (Ok payload, rest') =>
          (Ok (mkFrame source_id frame_id timestamp_us payload), rest')
      | (Raise e, rest') => (Raise e, rest')
      end
  | Raise e => (Raise e, tail)
  end.
Proof.
  intros Hr. unfold decode_flat.
  rewrite HEADER_SIZE_28, <- (spec_wire_header_len h), read_flat_prefix.
  rewrite parse_header_wire by assumption. reflexivity.
Qed.

(** C8, as the code has it. The flags field is not validated: any 16-bit
    value in it leaves the verdict of [parse_header] as it was, and a
    header that is otherwise valid is accepted.  It is not passed on
    either: neither the tuple [parse_header] returns nor the outcome of
    [decode_frame] depends on it. *)
Theorem flags_unvalidated_and_dropped
    (h : Header) (f : Z) (tail : bytes) (s1 s2 : socket) :
  header_in_range h -> uint 16 f ->
  well_chunked s1 -> unread s1 = spec_wire_header (set_flags f h) ++ tail ->
  well_chunked s2 -> unread s2 = spec_wire_header h ++ tail ->
  parse_header (spec_wire_header (set_flags f h)) =
    parse_header (spec_wire_header h) /\
  (valid_header h ->
   parse_header (spec_wire_header (set_flags f h)) =
     Ok (h_source_id h, h_frame_id h, h_timestamp_us h, h_payload_size h)) /\
  fst (decode_frame s1) = fst (decode_frame s2) /\
  unread (snd (decode_frame s1)) = unread (snd (decode_frame s2)).
Proof.
  intros Hr Hf Hwc1 Hun1 Hwc2 Hun2.
  pose proof (set_flags_in_range h f Hr Hf) as Hr'.
  rewrite !parse_header_wire by assumption.
  rewrite validate_set_flags.
  split; [reflexivity|]. split; [apply validate_valid|].
  destruct (decode_frame_flat s1 Hwc1) as (s1' & Hd1 & Hu1 & _).
  destruct (decode_frame_flat s2 Hwc2) as (s2' & Hd2 & Hu2 & _).
  rewrite Hd1, Hd2. simpl. rewrite Hu1, Hu2, Hun1, Hun2.
  rewrite !decode_flat_wire by assumption.
  rewrite validate_set_flags. split; reflexivity.
Qed.

Lemma flags_unvalidated_and_dropped_witness :
  parse_header (spec_wire_header flagged_header) = Ok (3, 42, 1234567890123, 2) /\
  fst (decode_frame
         (fresh (bytewise (spec_wire_header flagged_header ++ sample_body)))) =
  fst (decode_frame
         (fresh (bytewise (spec_wire_header sample_header ++ sample_body)))).
Proof.
  destruct (flags_unvalidated_and_dropped sample_header 0xFFFF sample_body
              (fresh (bytewise (spec_wire_header flagged_header ++ sample_body)))
              (fresh (bytewise (spec_wire_header sample_header ++ sample_body))))
    as (_ & Hacc & Hdec & _).
  - exact (proj1 sample_header_valid).
  - by_evaluation.
  - apply bytewise_well_chunked.
  - apply unread_bytewise.
  - apply bytewise_well_chunked.
  - apply unread_bytewise.
  - split; [exact (Hacc sample_header_valid) | exact Hdec].
Defined.

(** C8, as the specification has it, fails: the sample header and the same
    header with every flag bit set decode to the same frame, so nothing in
    the receiver's output tells the two flag values apart. *)
Lemma flags_pass_through_counterexample :
  h_flags sample_header <> h_flags flagged_header /\
  parse_header (spec_wire_header sample_header) =
    parse_header (spec_wire_header flagged_header) /\
  fst (decode_frame (fresh [spec_wire_header sample_header ++ sample_body])) =
    Ok (mkFrame 3 42 1234567890123 sample_body) /\
  fst (decode_frame (fresh [spec_wire_header flagged_header ++ sample_body])) =
    Ok (mkFrame 3 42 1234567890123 sample_body) /\
  ~ flags_pass_through.
Proof.
  split; [discriminate|]. split; [reflexivity|].
  split; [reflexivity|]. split; [reflexivity|].
  intros (flags_of & Hpass).
  assert (Hwc : forall bs : bytes, bs <> [] -> well_chunked (fresh [bs]))
    by (intros bs Hbs; repeat constructor; assumption).
  assert (Hun : forall bs : bytes, unread (fresh [bs]) = bs)
    by (intros bs; unfold unread, fresh; simpl; apply app_nil_r).
  assert (Hvalid : valid_header flagged_header)
    by by_evaluation.
  assert (Ha : flags_of (mkFrame 3 42 1234567890123 sample_body) =
               h_flags sample_header).
  { apply (Hpass sample_header sample_body
             (fresh [spec_wire_header sample_header ++ sample_body])
             (snd (decode_frame
                (fresh [spec_wire_header sample_header ++ sample_body])))).
    - exact sample_header_valid.
    - reflexivity.
    - apply Hwc. vm_compute. discriminate.
    - apply Hun.
    - reflexivity. }
  assert (Hb : flags_of (mkFrame 3 42 1234567890123 sample_body) =
               h_flags flagged_header).
  { apply (Hpass flagged_header sample_body
             (fresh [spec_wire_header flagged_header ++ sample_body])
             (snd (decode_frame
                (fresh [spec_wire_header flagged_header ++ sample_body])))).
    - exact Hvalid.
    - reflexivity.
    - apply Hwc. vm_compute. discriminate.
    - apply Hun.
    - reflexivity. }
  rewrite Ha in Hb. discriminate Hb.
Qed.

(** ** More on the header parser *)

Lemma validate_ok_inv (h : Header) (t : Z * Z * Z * Z) :
  validate h = Ok t ->
  h_magic h = STREAM_MAGIC /\ h_version h = STREAM_VERSION /\
  h_codec h = STREAM_CODEC_JPEG /\ h_payload_size h <= MAX_PAYLOAD_SIZE /\
  t = (h_source_id h, h_frame_id h, h_timestamp_us h, h_payload_size h).
Proof.
  unfold validate.
  destruct (Z.eqb_spec (h_magic h) STREAM_MAGIC) as [Hm | Hm];
    [|discriminate].
  destruct (Z.eqb_spec (h_version h) STREAM_VERSION) as [Hv | Hv];
    [|discriminate].
  destruct (Z.eqb_spec (h_codec h) STREAM_CODEC_JPEG) as [Hc | Hc];
    [|discriminate].
  destruct (h_payload_size h >? MAX_PAYLOAD_SIZE) eqn:Hp; [discriminate|].
  simpl. intros [= <-]. rewrite Z.gtb_ltb in Hp. apply Z.ltb_ge in Hp. auto.
Qed.

Lemma validate_raise_inv (h : Header) (e : exn) :
  validate h = Raise e -> exists msg, e = ValueError msg.
Proof.
  unfold validate.
  repeat match goal with
         | |- context [if ?b then _ else _] => destruct b
         end; intros [= <-]; eauto.
Qed.

Lemma parse_header_ok_iff (raw : bytes) (t : Z * Z * Z * Z) :
  parse_header raw = Ok t <->
  len raw = 28 /\
  h_magic (header_of_raw raw) = STREAM_MAGIC /\
  h_version (header_of_raw raw) = STREAM_VERSION /\
  h_codec (header_of_raw raw) = STREAM_CODEC_JPEG /\
  h_payload_size (header_of_raw raw) <= MAX_PAYLOAD_SIZE /\
  t = (h_source_id (header_of_raw raw), h_frame_id (header_of_raw raw),
       h_timestamp_us (header_of_raw raw), h_payload_size (header_of_raw raw)).
Proof.
  split.
  - intros Hok. destruct (Z.eq_dec (len raw) 28) as [Hlen | Hlen].
    + split; [assumption|]. rewrite parse_header_sized in Hok by assumption.
      apply validate_ok_inv. assumption.
    + rewrite parse_header_missized in Hok by assumption. discriminate.
  - intros (Hlen & Hm & Hv & Hc & Hp & ->).
    rewrite parse_header_sized by assumption.
    destruct (validate_cases (header_of_raw raw)) as (_ & _ & _ & _ & Hok).
    apply Hok; assumption.
Qed.

(** [parse_header] accepts a buffer exactly when it is 28 bytes long with
    the magic, version and codec of the protocol and a payload size of at
    most [MAX_PAYLOAD_SIZE]; what it returns is then the source id, frame
    id, timestamp and payload size read off the buffer. *)
Theorem parse_header_accepts_iff (raw : bytes) (t : Z * Z * Z * Z) :
  parse_header raw = Ok t <->
  len raw = 28 /\
  h_magic (header_of_raw raw) = STREAM_MAGIC /\
  h_version (header_of_raw raw) = STREAM_VERSION /\
  h_codec (header_of_raw raw) = STREAM_CODEC_JPEG /\
  h_payload_size (header_of_raw raw) <= MAX_PAYLOAD_SIZE /\
  t = (h_source_id (header_of_raw raw), h_frame_id (header_of_raw raw),
       h_timestamp_us (header_of_raw raw), h_payload_size (header_of_raw raw)).
Proof. apply parse_header_ok_iff. Qed.


Lemma parse_header_ok_bounds
    (raw : bytes) (sid fid ts ps : Z) :
  parse_header raw = Ok (sid, fid, ts, ps) ->
  0 <= sid < 65536 /\ 0 <= fid < 4294967296 /\
  0 <= ts < 18446744073709551616 /\ 0 <= ps <= 1048576.
Proof.
  intros Hok. apply parse_header_ok_iff in Hok.
  destruct Hok as (Hlen & _ & _ & _ & Hp & Ht).
  destruct (header_of_raw_wire raw Hlen)
    as ((_ & _ & _ & _ & Hs & _ & Hf & Hts & Hps) & _).
  injection Ht as -> -> -> ->. unfold uint, MAX_PAYLOAD_SIZE in *.
  repeat split; try apply Hs; try apply Hf; try apply Hts; try apply Hps.
  exact Hp.
Qed.

(** Whatever [parse_header] returns is in range: a 16-bit source id, a
    32-bit frame id, a 64-bit timestamp, and a payload size between 0 and
    [MAX_PAYLOAD_SIZE], so the read that follows never gets a negative or
    an oversize count. *)
Theorem parse_header_result_bounds
    (raw : bytes) (sid fid ts ps : Z) :
  parse_header raw = Ok (sid, fid, ts, ps) ->
  0 <= sid < 65536 /\ 0 <= fid < 4294967296 /\
  0 <= ts < 18446744073709551616 /\ 0 <= ps <= 1048576.
Proof. apply parse_header_ok_bounds. Qed.


Lemma parse_header_result_bounds_witness :
  0 <= 3 < 65536 /\ 0 <= 42 < 4294967296 /\
  0 <= 1234567890123 < 18446744073709551616 /\ 0 <= 2 <= 1048576.
Proof.
  apply (parse_header_result_bounds (spec_wire_header sample_header)
           3 42 1234567890123 2).
  reflexivity.
Defined.

Lemma parse_header_raise_inv (raw : bytes) (e : exn) :
  parse_header raw = Raise e ->
  (len raw <> 28 /\ e = StructError "unpack requires a buffer of 28 bytes") \/
  (len raw = 28 /\ exists msg, e = ValueError msg).
Proof.
  intros Hr. destruct (Z.eq_dec (len raw) 28) as [Hlen | Hlen].
  - right. split; [assumption|].
    rewrite parse_header_sized in Hr by assumption.
    apply (validate_raise_inv _ _ Hr).
  - left. rewrite parse_header_missized in Hr by assumption.
    split; [assumption | congruence].
Qed.

(** The exceptions of [parse_header]: [struct.error] exactly for a buffer
    that is not 28 bytes long, a [ValueError] otherwise. *)
Theorem parse_header_error_kinds (raw : bytes) (e : exn) :
  parse_header raw = Raise e ->
  (len raw <> 28 /\ e = StructError "unpack requires a buffer of 28 bytes") \/
  (len raw = 28 /\ exists msg, e = ValueError msg).
Proof. apply parse_header_raise_inv. Qed.


Lemma parse_header_error_kinds_witness :
  (len [Byte.x47; Byte.x53] <> 28 /\
   StructError "unpack requires a buffer of 28 bytes" =
   StructError "unpack requires a buffer of 28 bytes") \/
  (len [Byte.x47; Byte.x53] = 28 /\
   exists msg, StructError "unpack requires a buffer of 28 bytes" = ValueError msg).
Proof.
  apply (parse_header_error_kinds [Byte.x47; Byte.x53]). reflexivity.
Defined.

(** ** More on the reads *)

Lemma asks_remaining_le (reads : list (Z * bytes)) :
  forall size,
    asks_remaining size reads -> Forall (fun rd => fst rd <= size) reads.
Proof.
  induction reads as [|rd reads IH]; intros size Hasks; constructor.
  - destruct Hasks as [-> _]. lia.
  - destruct Hasks as [_ Hrest]. apply IH in Hrest.
    eapply Forall_impl; [|exact Hrest].
    intros x Hx. simpl in Hx. pose proof (len_nonneg (snd rd)). lia.
Qed.

Lemma asks_remaining_last (good : list (Z * bytes)) (rd : Z * bytes) :
  forall size,
    asks_remaining size (good ++ [rd]) -> fst rd = size - len (received good).
Proof.
  induction good as [|g good IH]; intros size Hasks; simpl in *.
  - destruct Hasks as [-> _]. unfold len. simpl. lia.
  - destruct Hasks as [_ Hrest]. rewrite (IH _ Hrest).
    rewrite received_cons, len_app. lia.
Qed.

Lemma partial_read_positive (rd : Z * bytes) : partial_read rd -> 0 < fst rd.
Proof.
  intros [Hne Hle]. destruct (snd rd) as [|b d]; [congruence|].
  unfold len in Hle. simpl in Hle. lia.
Qed.

(** Every [recv] that [recv_exact] makes asks for at least one byte and at
    most [size], and no more than [size] bytes leave the stream, whether
    the call returns or raises. *)
Lemma recv_exact_requests (size : Z) (s : socket) :
  exists reads,
    trace (snd (recv_exact size s)) = trace s ++ reads /\
    unread s = received reads ++ unread (snd (recv_exact size s)) /\
    len (received reads) <= Z.max 0 size /\
    Forall (fun rd => 0 < fst rd <= size) reads /\
    match fst (recv_exact size s) with
    | Ok data => data = received reads /\ len data = Z.max 0 size
    | Raise e => e = peer_closed
    end.
Proof.
  destruct (recv_exact_post size s)
    as (reads & s' & Htr & Hun & _ & Hasks & Hres).
  pose proof (asks_remaining_le reads size Hasks) as Hle.
  exists reads.
  destruct Hres as [(Hr & Hpr & Hsum) | (Hr & good & req & -> & Hpr & Hlt & _)];
    rewrite Hr; simpl.
  - split; [assumption|]. split; [assumption|]. split; [lia|]. split; [|auto].
    rewrite Forall_forall in *. intros rd Hin. split.
    + apply partial_read_positive, Hpr, Hin.
    + apply Hle, Hin.
  - split; [assumption|]. split; [assumption|].
    rewrite received_snoc. simpl. rewrite app_nil_r.
    split; [lia|]. split; [|reflexivity].
    pose proof (asks_remaining_last good (req, []) size Hasks) as Hreq.
    simpl in Hreq.
    rewrite Forall_forall in *. intros rd Hin. split; [|apply Hle, Hin].
    apply in_app_or in Hin. destruct Hin as [Hin | [<- | []]].
    + apply partial_read_positive, Hpr, Hin.
    + simpl. lia.
Qed.

(** ** More on [decode_frame] *)

Lemma decode_frame_ok_inv (s s' : socket) (f : Frame) :
  decode_frame s = (Ok f, s') ->
  exists raw,
    len raw = 28 /\
    parse_header raw =
      Ok (source_id f, frame_id f, timestamp_us f, len (payload f)) /\
    unread s = raw ++ payload f ++ unread s' /\
    len (payload f) <= MAX_PAYLOAD_SIZE.
Proof.
  rewrite decode_frame_eq. intros Hdec.
  destruct (recv_exact_requests HEADER_SIZE s)
    as (reads1 & _ & Hun1 & _ & _ & Hres1).
  destruct (recv_exact HEADER_SIZE s) as [[raw|e] s1]; [|discriminate].
  simpl in *. destruct Hres1 as (Hraw & Hlen).
  rewrite HEADER_SIZE_28 in Hlen.
  destruct (parse_header raw) as [[[[sid fid] ts] ps]|e] eqn:Hparse;
    [|discriminate].
  pose proof (parse_header_ok_bounds raw sid fid ts ps Hparse)
    as (_ & _ & _ & Hps).
  destruct (recv_exact_requests ps s1)
    as (reads2 & _ & Hun2 & _ & _ & Hres2).
  destruct (recv_exact ps s1) as [[body|e] s2]; [|discriminate].
  simpl in *. destruct Hres2 as (Hbody & Hblen).
  injection Hdec as <- <-. simpl.
  exists raw. rewrite Z.max_r in Hblen by lia.
  split; [lia|]. split; [rewrite Hblen; exact Hparse|].
  split; [rewrite Hun1, Hun2, <- Hraw, <- Hbody; reflexivity|].
  unfold MAX_PAYLOAD_SIZE. lia.
Qed.

(** A frame that [decode_frame] returns was on the wire: the stream began
    with a 28-byte header that [parse_header] accepts, carrying the
    frame's source id, frame id, timestamp and the length of its payload,
    then the payload; the stream is left at the byte after it.  This holds
    whatever the deliveries are. *)
Theorem decoded_frame_was_on_the_wire (s s' : socket) (f : Frame) :
  decode_frame s = (Ok f, s') ->
  exists raw,
    len raw = 28 /\
    parse_header raw =
      Ok (source_id f, frame_id f, timestamp_us f, len (payload f)) /\
    unread s = raw ++ payload f ++ unread s' /\
    len (payload f) <= MAX_PAYLOAD_SIZE.
Proof. apply decode_frame_ok_inv. Qed.


Lemma decoded_frame_was_on_the_wire_witness :
  exists raw,
    len raw = 28 /\
    parse_header raw = Ok (3, 42, 1234567890123, 2) /\
    spec_wire_header sample_header ++ sample_body = raw ++ sample_body ++ [] /\
    2 <= MAX_PAYLOAD_SIZE.
Proof.
  apply (decoded_frame_was_on_the_wire
           (fresh [spec_wire_header sample_header ++ sample_body])
           (snd (decode_frame
                   (fresh [spec_wire_header sample_header ++ sample_body])))
           (mkFrame 3 42 1234567890123 sample_body)).
  reflexivity.
Defined.

Lemma decode_frame_raise_inv (s s' : socket) (e : exn) :
  decode_frame s = (Raise e, s') ->
  e = ConnectionError "peer closed the connection" \/
  exists raw msg,
    len raw = 28 /\ parse_header raw = Raise e /\ e = ValueError msg.
Proof.
  rewrite decode_frame_eq. intros Hdec.
  destruct (recv_exact_requests HEADER_SIZE s)
    as (reads1 & _ & _ & _ & _ & Hres1).
  destruct (recv_exact HEADER_SIZE s) as [[raw|e1] s1]; simpl in *.
  - destruct Hres1 as (_ & Hlen). rewrite HEADER_SIZE_28 in Hlen.
    destruct (parse_header raw) as [[[[sid fid] ts] ps]|e2] eqn:Hparse.
    + destruct (recv_exact_requests ps s1)
        as (reads2 & _ & _ & _ & _ & Hres2).
      destruct (recv_exact ps s1) as [[body|e3] s2]; [discriminate|].
      simpl in Hres2. injection Hdec as <- <-. left. exact Hres2.
    + injection Hdec as <- <-. right.
      destruct (parse_header_raise_inv raw e2 Hparse)
        as [(Hne & _) | (_ & msg & Hmsg)]; [lia|].
      exists raw, msg. split; [lia|]. split; assumption.
  - injection Hdec as <- <-. left. exact Hres1.
Qed.

(** When [decode_frame] raises, the exception is not [struct.error]:
    whatever the stream, the header that [recv_exact] returns and
    [parse_header] unpacks is exactly 28 bytes long. *)
Theorem decode_frame_never_struct_error (s s' : socket) (e : exn) :
  decode_frame s = (Raise e, s') ->
  (forall msg, e <> StructError msg) /\
  (forall raw s1,
     recv_exact HEADER_SIZE s = (Ok raw, s1) ->
     len raw = 28 /\ forall msg, parse_header raw <> Raise (StructError msg)).
Proof.
  intros Hdec. split.
  - intros msg ->.
    destruct (decode_frame_raise_inv s s' _ Hdec)
      as [Hc | (raw & m & _ & _ & Hv)]; discriminate.
  - intros raw s1 Hr.
    destruct (recv_exact_requests HEADER_SIZE s)
      as (reads & _ & _ & _ & _ & Hres).
    rewrite Hr in Hres. simpl in Hres. destruct Hres as (_ & Hlen).
    rewrite HEADER_SIZE_28 in Hlen. split; [lia|].
    intros msg Hparse.
    destruct (parse_header_raise_inv raw _ Hparse)
      as [(Hne & _) | (_ & m & Hm)]; [lia | discriminate].
Qed.

Lemma decode_frame_never_struct_error_witness :
  (forall msg, ValueError "bad magic: 0x00000000" <> StructError msg) /\
  (forall raw s1,
     recv_exact HEADER_SIZE
       (fresh [spec_wire_header (mkHeader 0 1 1 0 0 0 0 0 0)]) = (Ok raw, s1) ->
     len raw = 28 /\ forall msg, parse_header raw <> Raise (StructError msg)).
Proof.
  apply (decode_frame_never_struct_error
           (fresh [spec_wire_header (mkHeader 0 1 1 0 0 0 0 0 0)])
           (snd (decode_frame
                   (fresh [spec_wire_header (mkHeader 0 1 1 0 0 0 0 0 0)])))).
  reflexivity.
Defined.

Lemma requests_within (bound size : Z) (reads : list (Z * bytes)) :
  size <= bound ->
  Forall (fun rd => 0 < fst rd <= size) reads ->
  Forall (fun rd => 0 < fst rd <= bound) reads.
Proof.
  intros Hle. apply Forall_impl. intros rd Hrd. lia.
Qed.

Lemma decode_frame_reads_bounded_aux (s : socket) :
  exists reads,
    trace (snd (decode_frame s)) = trace s ++ reads /\
    unread s = received reads ++ unread (snd (decode_frame s)) /\
    len (received reads) <= 28 + MAX_PAYLOAD_SIZE /\
    Forall (fun rd => 0 < fst rd <= MAX_PAYLOAD_SIZE) reads.
Proof.
  rewrite decode_frame_eq.
  destruct (recv_exact_requests HEADER_SIZE s)
    as (reads1 & Htr1 & Hun1 & Hlen1 & Hreq1 & Hres1).
  rewrite HEADER_SIZE_28 in *.
  assert (Hmax : 28 <= MAX_PAYLOAD_SIZE) by (unfold MAX_PAYLOAD_SIZE; lia).
  assert (Hpos : 0 <= MAX_PAYLOAD_SIZE) by lia.
  apply (requests_within MAX_PAYLOAD_SIZE) in Hreq1; [|assumption].
  destruct (recv_exact 28 s) as [[raw|e] s1]; simpl in *.
  - destruct (parse_header raw) as [[[[sid fid] ts] ps]|e] eqn:Hparse.
    + pose proof (parse_header_ok_bounds raw sid fid ts ps Hparse)
        as (_ & _ & _ & Hps).
      destruct (recv_exact_requests ps s1)
        as (reads2 & Htr2 & Hun2 & Hlen2 & Hreq2 & _).
      apply (requests_within MAX_PAYLOAD_SIZE) in Hreq2;
        [|unfold MAX_PAYLOAD_SIZE; lia].
      assert (Hgoal :
        trace (snd (recv_exact ps s1)) = trace s ++ reads1 ++ reads2 /\
        unread s = received (reads1 ++ reads2) ++ unread (snd (recv_exact ps s1)) /\
        len (received (reads1 ++ reads2)) <= 28 + MAX_PAYLOAD_SIZE /\
        Forall (fun rd => 0 < fst rd <= MAX_PAYLOAD_SIZE) (reads1 ++ reads2)).
      { split; [rewrite Htr2, Htr1, app_assoc; reflexivity|].
        assert (Hrec : received (reads1 ++ reads2) =
                       received reads1 ++ received reads2)
          by (unfold received; rewrite map_app, concat_app; reflexivity).
        rewrite Hrec. split; [rewrite Hun1, Hun2, app_assoc; reflexivity|].
        split; [rewrite len_app; unfold MAX_PAYLOAD_SIZE in *; lia|].
        apply Forall_app. split; assumption. }
      exists (reads1 ++ reads2).
      destruct (recv_exact ps s1) as [[body|e] s2]; exact Hgoal.
    + exists reads1. simpl. split; [assumption|]. split; [assumption|].
      split; [lia | assumption].
  - exists reads1. split; [assumption|]. split; [assumption|].
    split; [lia | assumption].
Qed.

(** One [decode_frame] takes at most [28 + MAX_PAYLOAD_SIZE] bytes off the
    stream and never asks [recv] for less than one byte or for more than
    [MAX_PAYLOAD_SIZE], whatever the peer sends and whether the call
    returns a frame or raises. *)
Theorem decode_frame_reads_bounded (s : socket) :
  exists reads,
    trace (snd (decode_frame s)) = trace s ++ reads /\
    unread s = received reads ++ unread (snd (decode_frame s)) /\
    len (received reads) <= 28 + MAX_PAYLOAD_SIZE /\
    Forall (fun rd => 0 < fst rd <= MAX_PAYLOAD_SIZE) reads.
Proof. apply decode_frame_reads_bounded_aux. Qed.


(** ** Reads one after the other *)

Lemma read_flat_split (a b : Z) (bs : bytes) :
  0 <= a -> 0 <= b ->
  read_flat (a + b) bs =
  match read_flat a bs with
  | (Ok x, rest) =>
      match read_flat b rest with
      | (Ok y, rest') => (Ok (x ++ y), rest')
      | (Raise e, rest') => (Raise e, rest')
      end
  | (Raise e, rest) => (Raise e, rest)
  end.
Proof.
  intros Ha Hb. unfold read_flat.
  destruct (a <=? len bs) eqn:Hla.
  - apply Z.leb_le in Hla.
    assert (Hskip : len (skipn (Z.to_nat a) bs) = len bs - a)
      by (unfold len in *; rewrite length_skipn; lia).
    rewrite Hskip.
    destruct (b <=? len bs - a) eqn:Hlb.
    + apply Z.leb_le in Hlb.
      replace (a + b <=? len bs) with true by (symmetry; apply Z.leb_le; lia).
      rewrite Z2Nat.inj_add by assumption.
      rewrite skipn_skipn, (Nat.add_comm (Z.to_nat b)).
      assert (Hfl : List.length (firstn (Z.to_nat a) bs) = Z.to_nat a)
        by (rewrite length_firstn; unfold len in Hla; lia).
      assert (Hjoin : firstn (Z.to_nat a + Z.to_nat b) bs =
                      firstn (Z.to_nat a) bs ++
                      firstn (Z.to_nat b) (skipn (Z.to_nat a) bs)).
      { rewrite <- (firstn_skipn (Z.to_nat a) bs) at 1.
        rewrite <- Hfl at 1. apply firstn_app_2. }
      rewrite Hjoin. reflexivity.
    + apply Z.leb_gt in Hlb.
      replace (a + b <=? len bs) with false by (symmetry; apply Z.leb_gt; lia).
      reflexivity.
  - apply Z.leb_gt in Hla.
    replace (a + b <=? len bs) with false by (symmetry; apply Z.leb_gt; lia).
    reflexivity.
Qed.

(** On a stream without empty deliveries, reading [a] bytes and then [b]
    bytes gives what reading [a + b] bytes at once gives: the same bytes
    (the two results joined) or the same exception, and the same bytes
    left on the stream. *)
Theorem recv_exact_in_two_parts (a b : Z) (s : socket) :
  0 <= a -> 0 <= b -> well_chunked s ->
  fst ((x <- recv_exact a ;; y <- recv_exact b ;; ret (x ++ y))%recv s) =
    fst (recv_exact (a + b) s) /\
  unread (snd ((x <- recv_exact a ;; y <- recv_exact b ;; ret (x ++ y))%recv s)) =
    unread (snd (recv_exact (a + b) s)).
Proof.
  intros Ha Hb Hwc. unfold bind, ret.
  destruct (recv_exact_flat (a + b) s Hwc) as (sw & Hw & Huw & _).
  destruct (recv_exact_flat a s Hwc) as (s1 & H1 & Hu1 & Hwc1).
  rewrite Hw, H1. simpl. rewrite Huw, (read_flat_split a b) by assumption.
  destruct (read_flat a (unread s)) as [[x|e] rest]; simpl in *.
  - destruct (recv_exact_flat b s1 Hwc1) as (s2 & H2 & Hu2 & _).
    rewrite Hu1 in H2, Hu2. rewrite H2.
    destruct (read_flat b rest) as [[y|e] rest']; simpl in *; auto.
  - auto.
Qed.

Lemma recv_exact_in_two_parts_witness :
  fst ((x <- recv_exact 28 ;; y <- recv_exact 2 ;; ret (x ++ y))%recv
         (fresh (bytewise (spec_wire_header sample_header ++ sample_body)))) =
  fst (recv_exact (28 + 2)
         (fresh (bytewise (spec_wire_header sample_header ++ sample_body)))).
Proof.
  apply (recv_exact_in_two_parts 28 2
           (fresh (bytewise (spec_wire_header sample_header ++ sample_body)))).
  - lia.
  - lia.
  - apply bytewise_well_chunked.
Defined.

(** ** Frames in a row *)

Lemma decode_frame_ok_size (s s' : socket) (f : Frame) :
  decode_frame s = (Ok f, s') ->
  len (unread s) = frame_bytes f + len (unread s').
Proof.
  intros Hdec.
  destruct (decode_frame_ok_inv s s' f Hdec) as (raw & Hlen & _ & Hun & _).
  rewrite Hun, !len_app. unfold frame_bytes. lia.
Qed.

Lemma decode_frame_raise_size (s s' : socket) (e : exn) :
  decode_frame s = (Raise e, s') -> len (unread s') <= len (unread s).
Proof.
  intros Hdec.
  destruct (decode_frame_reads_bounded_aux s) as (reads & _ & Hun & _).
  rewrite Hdec in Hun. simpl in Hun. rewrite Hun, len_app.
  pose proof (len_nonneg (received reads)). lia.
Qed.

Lemma receive_frames_account (n : nat) :
  forall s,
    wire_size (fst (fst (receive_frames n s))) +
      len (unread (snd (receive_frames n s))) <= len (unread s) /\
    (snd (fst (receive_frames n s)) = None ->
     List.length (fst (fst (receive_frames n s))) = n /\
     wire_size (fst (fst (receive_frames n s))) +
       len (unread (snd (receive_frames n s))) = len (unread s)).
Proof.
  induction n as [|n IH]; intros s; simpl.
  - split; [lia | intros _; split; [reflexivity | lia]].
  - destruct (decode_frame s) as [[f|e] s1] eqn:Hdec.
    + specialize (IH s1). apply decode_frame_ok_size in Hdec.
      destruct (receive_frames n s1) as [[fs e] s2]. simpl in *.
      destruct IH as (Hle & Heq). split; [lia|].
      intros Hnone. destruct (Heq Hnone) as (Hn & Hsum). split; lia.
    + simpl. apply decode_frame_raise_size in Hdec.
      split; [lia | discriminate].
Qed.

Lemma wire_size_at_least (fs : list Frame) :
  28 * Z.of_nat (List.length fs) <= wire_size fs.
Proof.
  induction fs as [|f fs IH]; simpl; [lia|].
  unfold frame_bytes. pose proof (len_nonneg (payload f)). lia.
Qed.

Lemma receive_frames_exception (n : nat) :
  forall s e,
    snd (fst (receive_frames n s)) = Some e ->
    e = peer_closed \/ exists msg, e = ValueError msg.
Proof.
  induction n as [|n IH]; intros s e; simpl; [discriminate|].
  destruct (decode_frame s) as [[f|e1] s1] eqn:Hdec.
  - specialize (IH s1 e).
    destruct (receive_frames n s1) as [[fs e2] s2]. simpl in *. exact IH.
  - simpl. intros [= <-].
    destruct (decode_frame_raise_inv s s1 e1 Hdec)
      as [-> | (raw & msg & _ & _ & ->)]; [left; reflexivity | right; eauto].
Qed.

(** The bytes of the frames [receive_frames] returns, headers included,
    and the bytes it leaves unread never add up to more than the stream
    held; when no exception ended the run, [n] frames came back and the
    two add up to exactly what the stream held. *)
Theorem receive_frames_accounting (n : nat) (s : socket) :
  wire_size (fst (fst (receive_frames n s))) +
    len (unread (snd (receive_frames n s))) <= len (unread s) /\
  (snd (fst (receive_frames n s)) = None ->
   List.length (fst (fst (receive_frames n s))) = n /\
   wire_size (fst (fst (receive_frames n s))) +
     len (unread (snd (receive_frames n s))) = len (unread s)).
Proof. apply receive_frames_account. Qed.

Lemma receive_frames_finite (n : nat) (s : socket) :
  len (unread s) < 28 * Z.of_nat n ->
  exists e,
    snd (fst (receive_frames n s)) = Some e /\
    28 * Z.of_nat (List.length (fst (fst (receive_frames n s)))) <=
      len (unread s) /\
    forall msg, e <> StructError msg.
Proof.
  intros Hshort.
  destruct (receive_frames_account n s) as (Hle & Hnone).
  pose proof (wire_size_at_least (fst (fst (receive_frames n s)))) as Hw.
  pose proof (len_nonneg (unread (snd (receive_frames n s)))) as Hpos.
  destruct (snd (fst (receive_frames n s))) as [e|] eqn:He.
  - exists e. split; [reflexivity|]. split; [lia|].
    intros msg ->.
    destruct (receive_frames_exception n s _ He) as [Hc | (m & Hm)];
      discriminate.
  - exfalso. destruct (Hnone eq_refl) as (Hn & Hsum). lia.
Qed.

(** When the peer sends fewer than [28 * n] bytes and then closes, [n]
    turns of the receive loop cannot all read a frame: the run ends with
    an exception after at most one frame per 28 bytes sent, and the
    exception is not [struct.error]. *)
Theorem receive_frames_ends_on_finite_stream (n : nat) (s : socket) :
  len (unread s) < 28 * Z.of_nat n ->
  exists e,
    snd (fst (receive_frames n s)) = Some e /\
    28 * Z.of_nat (List.length (fst (fst (receive_frames n s)))) <=
      len (unread s) /\
    forall msg, e <> StructError msg.
Proof. apply receive_frames_finite. Qed.

Lemma receive_frames_ends_on_finite_stream_witness :
  exists e,
    snd (fst (receive_frames 2
                (fresh (bytewise (spec_wire_header sample_header ++ sample_body)))))
      = Some e /\
    28 * Z.of_nat
           (List.length
              (fst (fst (receive_frames 2
                 (fresh (bytewise
                    (spec_wire_header sample_header ++ sample_body))))))) <=
      len (unread (fresh (bytewise
                            (spec_wire_header sample_header ++ sample_body)))) /\
    forall msg, e <> StructError msg.
Proof.
  apply (receive_frames_ends_on_finite_stream 2
           (fresh (bytewise (spec_wire_header sample_header ++ sample_body)))).
  vm_compute. reflexivity.
Defined.

(** ** The receive loop *)

(** [key & 0xFF] keeps the low byte of the key code: the loop stops on any
    code whose low byte is that of ["q"] or of Escape, whatever the bits
    above it, and it does not stop when no key was pressed. *)
Theorem quits_iff_low_byte (k : Z) :
  (quits k = true <-> k mod 256 = 113 \/ k mod 256 = 27) /\
  quits (-1) = false.
Proof.
  split; [|reflexivity].
  unfold quits. change 0xFF with (Z.ones 8). rewrite Z.land_ones by lia.
  change (2 ^ 8) with 256. rewrite orb_true_iff, !Z.eqb_eq. reflexivity.
Qed.

Section ReceiverFacts.

Variable image : Type.
Variable imdecode : bytes -> decoded image.
Variable log_every : Z.
Variable window_name : string.


Lemma receive_loop_S (fuel : nat) (w : world image) :
  receive_loop imdecode log_every window_name (S fuel) w =
  match turn imdecode log_every window_name w with
  | (Next, w') => receive_loop imdecode log_every window_name fuel w'
  | (ending, w') => (Some ending, w')
  end.
Proof. reflexivity. Qed.

(** An invariant of the turns holds when the loop stops. *)
Lemma receive_loop_invariant
    (P : world image -> Prop) (Q : turn_end -> world image -> Prop) :
  (forall w w',
     P w -> turn imdecode log_every window_name w = (Next, w') -> P w') ->
  (forall w x w',
     P w -> turn imdecode log_every window_name w = (x, w') ->
     x <> Next -> Q x w') ->
  forall fuel w,
    P w ->
    match receive_loop imdecode log_every window_name fuel w with
    | (None, w') => P w'
    | (Some x, w') => x <> Next /\ Q x w'
    end.
Proof.
  intros Hnext Hstop. induction fuel as [|fuel IH]; intros w HP.
  - exact HP.
  - rewrite receive_loop_S.
    destruct (turn imdecode log_every window_name w) as [x w'] eqn:Hturn.
    destruct x.
    + apply IH. apply (Hnext w w' HP Hturn).
    + split; [discriminate|]. apply (Hstop w _ w' HP Hturn). discriminate.
    + split; [discriminate|]. apply (Hstop w _ w' HP Hturn). discriminate.
    + split; [discriminate|]. apply (Hstop w _ w' HP Hturn). discriminate.
Qed.

(** What one turn does, case by case. *)
Lemma turn_cases (w : world image) :
  (exists e s',
     decode_frame (sock w) = (Raise e, s') /\
     turn imdecode log_every window_name w = (Raises e, with_sock image s' w))
  \/
  (exists f s' msg,
     decode_frame (sock w) = (Ok f, s') /\
     imdecode (payload f) = Cv2Error msg /\
     turn imdecode log_every window_name w = (RaisesCv2 msg, with_sock image s' w))
  \/
  (exists f s' line,
     decode_frame (sock w) = (Ok f, s') /\
     imdecode (payload f) = NoImage /\
     turn imdecode log_every window_name w =
       (Next, emit image (Stdout line) (with_sock image s' w)))
  \/
  (exists f s' img k ks,
     decode_frame (sock w) = (Ok f, s') /\
     imdecode (payload f) = Image img /\
     (k, ks) = match keys w with [] => (-1, []) | k :: ks => (k, ks) end /\
     let title := (window_name ++ " [source " ++ str (source_id f) ++ "]")%string in
     let shown := events w ++ [Imshow title img] in
     (quits k = true /\
      turn imdecode log_every window_name w =
        (Break, mkWorld s' ks (frame_count w) shown))
     \/
     (quits k = false /\
      turn imdecode log_every window_name w =
        (Next,
         mkWorld s' ks (frame_count w + 1)
           (if (log_every >? 0) && ((frame_count w + 1) mod log_every =? 0)
            then shown ++ [Stats (frame_count w + 1) (source_id f)
                                 (frame_id f) (timestamp_us f)]
            else shown)))).
Proof.
  unfold turn.
  destruct (decode_frame (sock w)) as [[f|e] s'] eqn:Hdec.
  - destruct (imdecode (payload f)) as [img| |msg] eqn:Him.
    + right. right. right.
      unfold waitKey, emit, with_sock, count_frame. simpl.
      destruct (keys w) as [|k ks] eqn:Hkeys.
      * exists f, s', img, (-1), []. split; [reflexivity|].
        split; [exact Him|]. split; [reflexivity|].
        right. split; [reflexivity|]. simpl.
        destruct ((log_every >? 0) && ((frame_count w + 1) mod log_every =? 0));
          reflexivity.
      * exists f, s', img, k, ks. split; [reflexivity|].
        split; [exact Him|]. split; [reflexivity|].
        destruct (quits k) eqn:Hq; [left | right];
          (split; [reflexivity|]); simpl; [reflexivity|].
        destruct ((log_every >? 0) && ((frame_count w + 1) mod log_every =? 0));
          reflexivity.
    + right. right. left. eexists f, s', _.
      split; [reflexivity|]. split; [exact Him | reflexivity].
    + right. left. exists f, s', msg.
      split; [reflexivity|]. split; [exact Him | reflexivity].
  - left. exists e, s'. split; reflexivity.
Qed.


Lemma run_receiver_loop (host : string) (port : Z) (s : socket)
    (user_keys : list Z) (fuel : nat) :
  run_receiver imdecode host port log_every window_name (Connected s)
    user_keys fuel =
  match receive_loop imdecode log_every window_name fuel
          (mkWorld s user_keys 0
             [Stdout ("Connected to " ++ host ++ ":" ++ str port)%string]) with
  | (Some Break, w') => (Returned 0, emit image DestroyAllWindows w')
  | (Some (Raises e), w') => (Raised e, w')
  | (Some (RaisesCv2 msg), w') => (RaisedCv2 msg, w')
  | (Some Next, w') => (Unfinished, w')
  | (None, w') => (Unfinished, w')
  end.
Proof. reflexivity. Qed.


Lemma div_succ (L c : Z) :
  0 < L -> 0 <= c ->
  (c + 1) / L = c / L + (if (c + 1) mod L =? 0 then 1 else 0).
Proof.
  intros HL Hc.
  pose proof (Z.div_mod c L ltac:(lia)) as Hd.
  pose proof (Z.mod_pos_bound c L HL) as Hm.
  pose proof (Z.div_mod (c + 1) L ltac:(lia)) as Hd'.
  pose proof (Z.mod_pos_bound (c + 1) L HL) as Hm'.
  destruct (Z.eqb_spec ((c + 1) mod L) 0) as [Hz | Hnz]; nia.
Qed.

Lemma multiples_S (step : Z) (n : nat) :
  multiples step (S n) = multiples step n ++ [Z.of_nat (S n) * step].
Proof. unfold multiples. rewrite seq_S, map_app. reflexivity. Qed.

Lemma stats_counts_snoc (evs : list (event image)) (ev : event image) :
  stats_counts (evs ++ [ev]) =
  stats_counts evs ++ match ev with Stats c _ _ _ => [c] | _ => [] end.
Proof.
  unfold stats_counts. rewrite flat_map_app. simpl. rewrite app_nil_r.
  reflexivity.
Qed.

Lemma stats_kept_turn (w w' : world image) (x : turn_end) :
  stats_kept log_every w -> turn imdecode log_every window_name w = (x, w') ->
  stats_kept log_every w'.
Proof.
  unfold stats_kept. intros (Hpos & Hst) Hturn.
  destruct (turn_cases w)
    as [(e & s' & _ & Ht) | [(f & s' & msg & _ & _ & Ht)
       | [(f & s' & line & _ & _ & Ht)
       | (f & s' & img & k & ks & _ & _ & _ & [(_ & Ht) | (_ & Ht)])]]];
    rewrite Ht in Hturn; injection Hturn as <- <-; simpl.
  - auto.
  - auto.
  - rewrite stats_counts_snoc, app_nil_r. auto.
  - rewrite stats_counts_snoc, app_nil_r. auto.
  - split; [lia|].
    destruct (log_every >? 0) eqn:HL; simpl.
    + apply Z.gtb_lt in HL.
      rewrite (div_succ log_every (frame_count w)) by assumption.
      destruct (Z.eqb_spec ((frame_count w + 1) mod log_every) 0) as [Hz | Hnz].
      * rewrite !stats_counts_snoc, app_nil_r, Hst.
        assert (Hq : 0 <= frame_count w / log_every)
          by (apply Z.div_pos; lia).
        replace (Z.to_nat (frame_count w / log_every + 1))
          with (S (Z.to_nat (frame_count w / log_every))) by lia.
        rewrite multiples_S. f_equal. f_equal.
        pose proof (div_succ log_every (frame_count w) HL Hpos) as Hd.
        pose proof (Z.div_mod (frame_count w + 1) log_every ltac:(lia)) as Hdm.
        rewrite Hz in Hdm.
        destruct (Z.eqb_spec ((frame_count w + 1) mod log_every) 0);
          [|contradiction].
        rewrite Hd in Hdm. nia.
      * rewrite stats_counts_snoc, app_nil_r, Z.add_0_r. exact Hst.
    + rewrite stats_counts_snoc, app_nil_r. exact Hst.
Qed.

Lemma stats_kept_run (host : string) (port : Z) (conn : connection)
    (user_keys : list Z) (fuel : nat) :
  stats_kept log_every
    (snd (run_receiver imdecode host port log_every window_name
            conn user_keys fuel)).
Proof.
  assert (Hinit : forall (s : socket) (evs : list (event image)),
             stats_counts evs = [] ->
             stats_kept log_every (mkWorld s user_keys 0 evs)).
  { intros s evs Hevs. split; [simpl; lia|]. simpl. rewrite Hevs.
    destruct (log_every >? 0); reflexivity. }
  destruct conn as [s|msg]; [|apply Hinit; reflexivity].
  rewrite run_receiver_loop.
  pose proof (receive_loop_invariant
                (stats_kept log_every) (fun _ w => stats_kept log_every w)
                (fun w w' HP Ht => stats_kept_turn w w' Next HP Ht)
                (fun w x w' HP Ht _ => stats_kept_turn w w' x HP Ht)
                fuel _
                (Hinit s
                   [Stdout ("Connected to " ++ host ++ ":" ++ str port)%string]
                   eq_refl)) as Hinv.
  destruct (receive_loop imdecode log_every window_name fuel _)
    as [[x|] w'].
  - destruct Hinv as (_ & Hk). destruct x; try exact Hk.
    unfold stats_kept in *. simpl. rewrite stats_counts_snoc, app_nil_r.
    exact Hk.
  - exact Hinv.
Qed.

(** The statistics lines [run_receiver] prints are those for the frame
    counts [log_every], [2 * log_every], ... up to the final
    [frame_count], in that order, one each; with [log_every <= 0] none is
    printed. *)
Theorem stats_lines_at_multiples (host : string) (port : Z)
    (conn : connection) (user_keys : list Z) (fuel : nat) :
  stats_counts
    (events (snd (run_receiver imdecode host port log_every window_name
                    conn user_keys fuel))) =
  if log_every >? 0
  then multiples log_every
         (Z.to_nat
            (frame_count
               (snd (run_receiver imdecode host port log_every window_name
                       conn user_keys fuel)) / log_every))
  else [].
Proof. apply stats_kept_run. Qed.







End ReceiverFacts.

(** *** Sample runs *)

Lemma junk_header_valid : valid_header junk_header.
Proof. by_evaluation. Qed.


(** Pressing ["q"] on the first frame: the frame is shown, not counted,
    and [run_receiver] returns 0 with the second frame unread. *)
Example quit_on_first_frame :
  let r := run_receiver sample_imdecode "127.0.0.1" 9000 1 "W"
             (Connected
                (fresh [spec_wire_header sample_header ++ sample_body;
                        spec_wire_header sample_header ++ sample_body]))
             [113] 5 in
  fst r = Returned 0 /\
  frame_count (snd r) = 0 /\
  events (snd r) =
    [Stdout "Connected to 127.0.0.1:9000"; Imshow "W [source 3]" 2%nat;
     DestroyAllWindows] /\
  unread (sock (snd r)) = spec_wire_header sample_header ++ sample_body.
Proof. repeat split; reflexivity. Qed.

(** An empty payload makes the sample decoder raise: the exception leaves
    [run_receiver] with the frame read and nothing shown. *)
Example decoder_raises_on_empty_payload :
  let r := run_receiver sample_imdecode "127.0.0.1" 9000 1 "W"
             (Connected (fresh [spec_wire_header empty_frame_header]))
             [] 5 in
  fst r = RaisedCv2 "imdecode: empty buffer" /\
  frame_count (snd r) = 0 /\
  imshows nat (events (snd r)) = [] /\
  unread (sock (snd r)) = [].
Proof. repeat split; reflexivity. Qed.

